(** * bot-scalping: indicator engine, signal evaluator and consensus

    A shallow embedding of [src/bot.py]: [compute_indicators],
    [evaluate_conditions] and [analyze_symbol], with the pandas / numpy
    column operations they call.

    Numeric model.  A Python float is a real number, an infinity or NaN
    (which pandas also uses for a missing value).  Rounding, overflow and
    signed zeros are outside the model.  A candle holds parsed exchange
    prices, so its fields are plain reals; NaN only arises inside the
    engine ([shift], [diff], [rolling], [replace(0, nan)]), and an infinity
    could only arise from a division by zero. *)

From Stdlib Require Import Ascii String Reals Lra Lia List Bool Arith Sorted.
Import ListNotations.
Open Scope R_scope.

(** ** Floats with NaN and infinities *)

Module Float.

(** [Inf false] is +inf and [Inf true] is -inf. *)
Inductive F : Type :=
| NaN
| Num (x : R)
| Inf (neg : bool).

Definition num (x : R) : F := Num x.

(** Sign of a real: [true] when negative. *)
Definition Rneg (x : R) : bool := if Rlt_dec x 0 then true else false.

(** IEEE arithmetic on the extended reals.  The reals have a single zero:
    signed zeros are outside the model, and a non-zero number divided by
    zero takes the sign of the numerator, as with a divisor [+0.0]. *)
Definition fadd (a b : F) : F :=
  match a, b with
  | Num x, Num y => Num (x + y)
  | Num _, Inf s => Inf s
  | Inf s, Num _ => Inf s
  | Inf s, Inf t => if Bool.eqb s t then Inf s else NaN
  | _, _ => NaN
  end.

Definition fsub (a b : F) : F :=
  match a, b with
  | Num x, Num y => Num (x - y)
  | Num _, Inf s => Inf (negb s)
  | Inf s, Num _ => Inf s
  | Inf s, Inf t => if Bool.eqb s t then NaN else Inf s
  | _, _ => NaN
  end.

Definition fmul (a b : F) : F :=
  match a, b with
  | Num x, Num y => Num (x * y)
  | Num x, Inf s => if Req_dec_T x 0 then NaN else Inf (xorb (Rneg x) s)
  | Inf s, Num y => if Req_dec_T y 0 then NaN else Inf (xorb s (Rneg y))
  | Inf s, Inf t => Inf (xorb s t)
  | _, _ => NaN
  end.

(** Division: [x / 0] is an infinity for [x <> 0] and NaN for [x = 0]. *)
Definition fdiv (a b : F) : F :=
  match a, b with
  | Num x, Num y =>
      if Req_dec_T y 0
      then (if Req_dec_T x 0 then NaN else Inf (Rneg x))
      else Num (x / y)
  | Num _, Inf _ => Num 0
  | Inf s, Num y => Inf (xorb s (Rneg y))
  | _, _ => NaN
  end.

Definition fabs (a : F) : F :=
  match a with
  | NaN => NaN
  | Num x => Num (Rabs x)
  | Inf _ => Inf false
  end.

(** The larger and the smaller of two floats, NaN if either is NaN. *)
Definition fmax (a b : F) : F :=
  match a, b with
  | NaN, _ => NaN
  | _, NaN => NaN
  | Num x, Num y => Num (Rmax x y)
  | Inf false, _ => Inf false
  | _, Inf false => Inf false
  | Inf true, _ => b
  | _, Inf true => a
  end.

Definition fmin (a b : F) : F :=
  match a, b with
  | NaN, _ => NaN
  | _, NaN => NaN
  | Num x, Num y => Num (Rmin x y)
  | Inf true, _ => Inf true
  | _, Inf true => Inf true
  | Inf false, _ => b
  | _, Inf false => a
  end.

(** Comparisons: any comparison with NaN is [false]. *)
Definition Rltb (x y : R) : bool := if Rlt_dec x y then true else false.
Definition Rleb (x y : R) : bool := if Rle_dec x y then true else false.

Definition flt (a b : F) : bool :=
  match a, b with
  | Num x, Num y => Rltb x y
  | Inf true, Num _ => true
  | Num _, Inf false => true
  | Inf true, Inf false => true
  | _, _ => false
  end.

Definition fle (a b : F) : bool :=
  match a, b with
  | Num x, Num y => Rleb x y
  | Inf true, Num _ => true
  | Num _, Inf false => true
  | Inf true, Inf _ => true
  | Inf false, Inf false => true
  | _, _ => false
  end.

Definition fgt (a b : F) : bool := flt b a.
Definition fge (a b : F) : bool := fle b a.

(** The same comparisons as propositions. *)
Definition Flt (a b : F) : Prop :=
  match a, b with
  | Num x, Num y => x < y
  | Inf true, Num _ => True
  | Num _, Inf false => True
  | Inf true, Inf false => True
  | _, _ => False
  end.

Definition Fle (a b : F) : Prop :=
  match a, b with
  | Num x, Num y => x <= y
  | Inf true, Num _ => True
  | Num _, Inf false => True
  | Inf true, Inf _ => True
  | Inf false, Inf false => True
  | _, _ => False
  end.

Definition Fgt (a b : F) : Prop := Flt b a.
Definition Fge (a b : F) : Prop := Fle b a.

(** [a] is a (finite) number: neither NaN nor an infinity. *)
Definition is_num (a : F) : Prop := exists x, a = Num x.

Definition is_nan (a : F) : bool :=
  match a with
  | NaN => true
  | _ => false
  end.

End Float.
Import Float.

(** ** Configuration (the module-level constants of the script) *)

Definition TIMEFRAMES : list string :=
  ["1m"; "5m"; "15m"; "30m"; "1h"]%string.
Definition LIMIT : nat := 100.

Definition EMA_FAST : nat := 7.
Definition EMA_SLOW : nat := 25.
Definition RSI_WINDOW : nat := 7.
Definition ADX_WINDOW : nat := 14.
Definition BB_WINDOW : nat := 20.
Definition VOL_WINDOW : nat := 20.
Definition MACD_FAST : nat := 12.
Definition MACD_SLOW : nat := 26.
Definition MACD_SIGNAL : nat := 9.
Definition ADX_THRESHOLD : R := 25.
Definition RSI_BUY_MIN : R := 50.
Definition RSI_BUY_MAX : R := 65.
Definition RSI_SELL_MIN : R := 35.
Definition RSI_SELL_MAX : R := 50.

(** ** Data model *)

Inductive Signal : Type := BUY | SELL | NEUTRAL.

Definition Signal_eqb (a b : Signal) : bool :=
  match a, b with
  | BUY, BUY | SELL, SELL | NEUTRAL, NEUTRAL => true
  | _, _ => false
  end.

(** One row of the data frame, as [evaluate_conditions] reads it. *)
Record Snapshot : Type := mkSnapshot {
  close : F;
  volume : F;
  EMA_fast : F;
  EMA_slow : F;
  MACD : F;
  MACD_signal : F;
  RSI : F;
  ADX : F;
  bb_upper : F;
  bb_lower : F;
  vol_ma : F
}.

(** Python's [all] on a list of booleans. *)
Definition all (bs : list bool) : bool := forallb (fun b => b) bs.

(** ** Signal evaluator *)

Definition ema_buy (l : Snapshot) : bool := fgt (EMA_fast l) (EMA_slow l).
Definition ema_sell (l : Snapshot) : bool := flt (EMA_fast l) (EMA_slow l).
Definition macd_buy (l : Snapshot) : bool := fgt (MACD l) (MACD_signal l).
Definition macd_sell (l : Snapshot) : bool := flt (MACD l) (MACD_signal l).
(** [lo <= x <= hi] is Python's chained comparison. *)
Definition rsi_buy (l : Snapshot) : bool :=
  fle (num RSI_BUY_MIN) (RSI l) && fle (RSI l) (num RSI_BUY_MAX).
Definition rsi_sell (l : Snapshot) : bool :=
  fle (num RSI_SELL_MIN) (RSI l) && fle (RSI l) (num RSI_SELL_MAX).
Definition adx_ok (l : Snapshot) : bool := fge (ADX l) (num ADX_THRESHOLD).
Definition vol_ok (l : Snapshot) : bool := fge (volume l) (vol_ma l).
Definition bb_buy (l : Snapshot) : bool := fgt (close l) (bb_upper l).
Definition bb_sell (l : Snapshot) : bool := flt (close l) (bb_lower l).

Definition evaluate_conditions (latest : Snapshot) : Signal :=
  if all [ema_buy latest; macd_buy latest; rsi_buy latest;
          adx_ok latest; vol_ok latest; bb_buy latest]
  then BUY
  else if all [ema_sell latest; macd_sell latest; rsi_sell latest;
               adx_ok latest; vol_ok latest; bb_sell latest]
  then SELL
  else NEUTRAL.

(** The evaluator with its two branches tested in the other order (not in
    the source; used to state that the order does not matter). *)
Definition evaluate_conditions_sell_first (latest : Snapshot) : Signal :=
  if all [ema_sell latest; macd_sell latest; rsi_sell latest;
          adx_ok latest; vol_ok latest; bb_sell latest]
  then SELL
  else if all [ema_buy latest; macd_buy latest; rsi_buy latest;
               adx_ok latest; vol_ok latest; bb_buy latest]
  then BUY
  else NEUTRAL.

(** The six BUY conditions and the six SELL conditions, as propositions. *)
Definition buy_conditions (l : Snapshot) : list Prop :=
  [ Fgt (EMA_fast l) (EMA_slow l);
    Fgt (MACD l) (MACD_signal l);
    Fle (num RSI_BUY_MIN) (RSI l) /\ Fle (RSI l) (num RSI_BUY_MAX);
    Fge (ADX l) (num ADX_THRESHOLD);
    Fge (volume l) (vol_ma l);
    Fgt (close l) (bb_upper l) ].

Definition sell_conditions (l : Snapshot) : list Prop :=
  [ Flt (EMA_fast l) (EMA_slow l);
    Flt (MACD l) (MACD_signal l);
    Fle (num RSI_SELL_MIN) (RSI l) /\ Fle (RSI l) (num RSI_SELL_MAX);
    Fge (ADX l) (num ADX_THRESHOLD);
    Fge (volume l) (vol_ma l);
    Flt (close l) (bb_lower l) ].

Definition all_hold (ps : list Prop) : Prop := Forall (fun p => p) ps.

(** [k]-th condition fails and every other one holds. *)
Definition only_fails (k : nat) (ps : list Prop) : Prop :=
  forall i p, nth_error ps i = Some p -> (i = k -> ~ p) /\ (i <> k -> p).

(** ** The pandas / numpy operations the engine calls

    A column ([pd.Series]) is a [list F].  Each operation follows the
    documented behaviour of the call as the script makes it (default
    [min_periods], [skipna], [ddof], [ignore_na]). *)

Module Pandas.

Fixpoint map2 {A B C : Type} (f : A -> B -> C) (xs : list A) (ys : list B)
  : list C :=
  match xs, ys with
  | x :: xs', y :: ys' => f x y :: map2 f xs' ys'
  | _, _ => []
  end.

(** [s.shift()]: every value moves one row down, row 0 becomes NaN. *)
Fixpoint shift_from (prev : F) (xs : list F) : list F :=
  match xs with
  | [] => []
  | x :: r => prev :: shift_from x r
  end.

Definition shift (xs : list F) : list F := shift_from NaN xs.

(** [s.diff()]: [s - s.shift()]. *)
Definition diff (xs : list F) : list F := map2 fsub xs (shift xs).

(** [s.clip(lower=lo)] and [s.clip(upper=hi)]; NaN stays NaN. *)
Definition clip_lower (lo : R) (xs : list F) : list F :=
  map (fmax (num lo)) xs.
Definition clip_upper (hi : R) (xs : list F) : list F :=
  map (fmin (num hi)) xs.

(** [s.replace(0, np.nan)]. *)
Definition replace_zero_nan (a : F) : F :=
  match a with
  | Num x => if Req_dec_T x 0 then NaN else Num x
  | _ => a
  end.

(** [s.fillna(v)]. *)
Definition fillna (v : R) (a : F) : F :=
  match a with
  | NaN => Num v
  | _ => a
  end.

(** [s.fillna(method="bfill")]: a NaN takes the next valid value below it;
    NaNs after the last valid value stay. *)
Fixpoint bfill (xs : list F) : list F :=
  match xs with
  | [] => []
  | x :: r =>
      let r' := bfill r in
      match x with
      | NaN => hd NaN r' :: r'
      | _ => x :: r'
      end
  end.

(** [df[[a, b, c]].max(axis=1)]: the row maximum, NaN skipped; NaN when
    every entry is NaN. *)
Definition max_skipna (a b : F) : F :=
  match a, b with
  | NaN, _ => b
  | _, NaN => a
  | _, _ => fmax a b
  end.

(** [np.maximum(a, b)]: NaN if either is NaN. *)
Definition maximum : F -> F -> F := fmax.

(** [np.where(cond, a, b)], one row. *)
Definition np_where (cond : bool) (a b : F) : F := if cond then a else b.

(** *** Exponentially weighted mean, [adjust=False], [ignore_na=False]

    The state is the running mean and the weight [old_wt] it carries.  With
    no NaN in the input this is
    [y 0 = x 0], [y t = (1 - alpha) * y (t-1) + alpha * x t].
    Leading NaNs give NaN until the first value; a NaN later on keeps the
    mean and lets its weight decay by [1 - alpha].  The weights are
    positive for [0 < alpha <= 1], so the update of a finite mean by a
    finite value never divides by zero. *)
Definition ewm_update (old alpha : R) (weighted cur : F) : F :=
  match weighted, cur with
  | Num w, Num c => Num ((old * w + alpha * c) / (old + alpha))
  | _, _ =>
      fdiv (fadd (fmul (num old) weighted) (fmul (num alpha) cur))
           (num (old + alpha))
  end.

Definition ewm_step (alpha : R) (st : F * R) (cur : F) : F * R :=
  let '(weighted, old_wt) := st in
  match is_nan weighted, is_nan cur with
  | false, false =>
      (ewm_update (old_wt * (1 - alpha)) alpha weighted cur, 1)
  | false, true => (weighted, old_wt * (1 - alpha))
  | true, false => (cur, old_wt)
  | true, true => (NaN, old_wt)
  end.

Fixpoint ewm_from (alpha : R) (st : F * R) (xs : list F) : list F :=
  match xs with
  | [] => []
  | x :: r =>
      let st' := ewm_step alpha st x in
      fst st' :: ewm_from alpha st' r
  end.

Definition ewm_mean (alpha : R) (xs : list F) : list F :=
  match xs with
  | [] => []
  | x :: r => x :: ewm_from alpha (x, 1) r
  end.

(** [ewm(span=s)] has [alpha = 2 / (s + 1)] (pandas wants [s >= 1]),
    [ewm(com=c)] has [alpha = 1 / (1 + c)]. *)
Definition alpha_span (span : nat) : R := 2 / (INR span + 1).
Definition alpha_com (com : nat) : R := 1 / (1 + INR com).

(** *** Rolling windows, [min_periods = window]

    The window of row [i] is rows [i - w + 1 .. i].  The aggregate is NaN
    while fewer than [w] rows exist and whenever the window holds a NaN;
    otherwise it is computed from the values of the window. *)
Definition window (w i : nat) (xs : list F) : option (list F) :=
  if (w <=? i + 1)%nat
  then Some (skipn (i + 1 - w) (firstn (i + 1) xs))
  else None.

Definition has_nan (xs : list F) : bool := existsb is_nan xs.

Definition rolling (w : nat) (agg : list F -> F) (xs : list F) : list F :=
  map (fun i =>
         match window w i xs with
         | Some win => if has_nan win then NaN else agg win
         | None => NaN
         end)
      (seq 0 (length xs)).

Definition agg_sum (l : list F) : F := fold_right fadd (num 0) l.

Definition agg_mean (l : list F) : F :=
  fdiv (agg_sum l) (num (INR (length l))).

(** [std()] is the sample standard deviation ([ddof=1]); NaN on fewer than
    two values.  (pandas clips a negative variance to 0 before the square
    root; [sqrt] is 0 on negative reals.) *)
Definition fsqrt (a : F) : F :=
  match a with
  | Num x => Num (sqrt x)
  | Inf false => Inf false
  | _ => NaN
  end.

Definition agg_std (l : list F) : F :=
  if (length l <=? 1)%nat then NaN
  else
    let m := agg_mean l in
    fsqrt (fdiv (agg_sum (map (fun x => fmul (fsub x m) (fsub x m)) l))
                (num (INR (length l) - 1))).

(** The sum and the mean of real values. *)
Definition Rsum (l : list R) : R := fold_right Rplus 0 l.

Definition mean_R (l : list R) : R := Rsum l / INR (length l).


End Pandas.
Import Pandas.

(** ** Indicator engine *)

(** A kline as [fetch_binance_klines] returns it: the columns the engine
    reads, cast to float.  ([open] and the other exchange columns are
    never read.) *)
Record Candle : Type := mkCandle {
  k_high : R;
  k_low : R;
  k_close : R;
  k_volume : R
}.

(** The columns of [compute_indicators], each as a function of the input
    frame, under the names the script gives them. *)
Module Col.

Definition high (df : list Candle) : list F := map (fun k => num (k_high k)) df.
Definition low (df : list Candle) : list F := map (fun k => num (k_low k)) df.
Definition close (df : list Candle) : list F := map (fun k => num (k_close k)) df.
Definition volume (df : list Candle) : list F := map (fun k => num (k_volume k)) df.

Definition EMA_fast df := ewm_mean (alpha_span EMA_FAST) (close df).
Definition EMA_slow df := ewm_mean (alpha_span EMA_SLOW) (close df).

Definition ema_fast df := ewm_mean (alpha_span MACD_FAST) (close df).
Definition ema_slow df := ewm_mean (alpha_span MACD_SLOW) (close df).
Definition MACD df := map2 fsub (ema_fast df) (ema_slow df).
Definition MACD_signal df := ewm_mean (alpha_span MACD_SIGNAL) (MACD df).

Definition delta df := diff (close df).
Definition up df := clip_lower 0 (delta df).
Definition down df := map (fmul (num (-1))) (clip_upper 0 (delta df)).
Definition ma_up df := ewm_mean (alpha_com (RSI_WINDOW - 1)) (up df).
Definition ma_down df := ewm_mean (alpha_com (RSI_WINDOW - 1)) (down df).
Definition rs df := map2 fdiv (ma_up df) (map replace_zero_nan (ma_down df)).
Definition RSI_raw df :=
  map (fun r => fsub (num 100) (fdiv (num 100) (fadd (num 1) r))) (rs df).
(** [df["RSI"].fillna(50, inplace=True)] updates the column of [df]
    itself (pandas before 3.0, which [fillna(method=...)] below needs
    too). *)
Definition RSI df := map (fillna 50) (RSI_raw df).

Definition tr0 df := map2 fsub (high df) (low df).
Definition tr1 df := map fabs (map2 fsub (high df) (shift (close df))).
Definition tr2 df := map fabs (map2 fsub (low df) (shift (close df))).
Definition TR df := map2 max_skipna (map2 max_skipna (tr0 df) (tr1 df)) (tr2 df).

Definition up_move df := map2 fsub (high df) (shift (high df)).
Definition down_move df := map2 fsub (shift (low df)) (low df).
Definition plus_dm df :=
  map2 (fun u d => np_where (fgt u d) (maximum u (num 0)) (num 0))
       (up_move df) (down_move df).
Definition minus_dm df :=
  map2 (fun u d => np_where (fgt d u) (maximum d (num 0)) (num 0))
       (up_move df) (down_move df).

Definition TR_s df := rolling ADX_WINDOW agg_sum (TR df).
Definition plus_dm_s df := rolling ADX_WINDOW agg_sum (plus_dm df).
Definition minus_dm_s df := rolling ADX_WINDOW agg_sum (minus_dm df).
Definition plus_di df :=
  map (fmul (num 100))
      (map2 fdiv (plus_dm_s df) (map replace_zero_nan (TR_s df))).
Definition minus_di df :=
  map (fmul (num 100))
      (map2 fdiv (minus_dm_s df) (map replace_zero_nan (TR_s df))).
Definition DX df :=
  map2 fdiv
       (map (fmul (num 100)) (map fabs (map2 fsub (plus_di df) (minus_di df))))
       (map replace_zero_nan (map2 fadd (plus_di df) (minus_di df))).
Definition ADX df := map (fillna 0) (rolling ADX_WINDOW agg_mean (DX df)).

Definition sma df := rolling BB_WINDOW agg_mean (close df).
Definition std df := rolling BB_WINDOW agg_std (close df).
Definition bb_upper df := map2 fadd (sma df) (map (fmul (num 2)) (std df)).
Definition bb_lower df := map2 fsub (sma df) (map (fmul (num 2)) (std df)).

Definition vol_ma df := bfill (rolling VOL_WINDOW agg_mean (volume df)).

End Col.

(** [df[col].iloc[i]], NaN out of range (never read there). *)
Definition at_row (col : list F) (i : nat) : F := nth i col NaN.

(** Row [i] of the frame that [compute_indicators] returns. *)
Definition row (df : list Candle) (i : nat) : Snapshot :=
  {| close := at_row (Col.close df) i;
     volume := at_row (Col.volume df) i;
     EMA_fast := at_row (Col.EMA_fast df) i;
     EMA_slow := at_row (Col.EMA_slow df) i;
     MACD := at_row (Col.MACD df) i;
     MACD_signal := at_row (Col.MACD_signal df) i;
     RSI := at_row (Col.RSI df) i;
     ADX := at_row (Col.ADX df) i;
     bb_upper := at_row (Col.bb_upper df) i;
     bb_lower := at_row (Col.bb_lower df) i;
     vol_ma := at_row (Col.vol_ma df) i |}.

(** The frame after [compute_indicators], row by row. *)
Definition compute_indicators (df : list Candle) : list Snapshot :=
  map (row df) (seq 0 (length df)).

(** ** Consensus aggregator *)

Inductive Error : Type :=
| DataUnavailable   (* the fetch raised *)
| IndexError.       (* [df.iloc[-1]] on an empty frame *)

Definition result (A : Type) : Type := (A + Error)%type.

Definition bind {A B : Type} (m : result A) (k : A -> result B) : result B :=
  match m with
  | inl a => k a
  | inr e => inr e
  end.

Notation "x <- m ;; k" := (bind m (fun x => k))
  (at level 61, m at next level, right associativity).

(** [df.iloc[-1]]. *)
Definition iloc_last {A : Type} (rows : list A) : result A :=
  match nth_error rows (length rows - 1) with
  | Some r => inl r
  | None => inr IndexError
  end.

(** A Python dict keeps insertion order; assigning an existing key
    overwrites its value in place. *)
Definition dict : Type := list (string * Signal).

Fixpoint dict_set (d : dict) (k : string) (v : Signal) : dict :=
  match d with
  | [] => [(k, v)]
  | (k', v') :: r =>
      if String.eqb k' k then (k', v) :: r else (k', v') :: dict_set r k v
  end.

(** The data source: [fetch symbol interval limit]. *)
Definition Fetch : Type := string -> string -> nat -> result (list Candle).

(** The loop over the timeframes, threading [signals] and [per_tf].
    ([time.sleep] does not change the result.) *)
Fixpoint analyze_loop (fetch : Fetch) (symbol : string) (tfs : list string)
    (signals : list Signal) (per_tf : dict) : result (list Signal * dict) :=
  match tfs with
  | [] => inl (signals, per_tf)
  | tf :: rest =>
      df <- fetch symbol tf LIMIT ;;
      latest <- iloc_last (compute_indicators df) ;;
      let signal := evaluate_conditions latest in
      analyze_loop fetch symbol rest (signals ++ [signal])
                   (dict_set per_tf tf signal)
  end.

Definition analyze_symbol (fetch : Fetch) (symbol : string)
  : result (Signal * dict) :=
  sp <- analyze_loop fetch symbol TIMEFRAMES [] [] ;;
  let '(signals, per_tf) := sp in
  if forallb (Signal_eqb BUY) signals then inl (BUY, per_tf)
  else if forallb (Signal_eqb SELL) signals then inl (SELL, per_tf)
  else inl (NEUTRAL, per_tf).

(** ** The polling cycle

    The body of the [while True] loop of the script: one pass over the
    symbols.  Each message goes to the console ([TEST_MODE]) or to the
    messaging API; an exception of [analyze_symbol] is not caught and ends
    the pass (and the program).  [time.sleep] and the endless repetition
    are not modelled. *)

Definition SYMBOLS_FIXED : list string :=
  ["BTCUSDT"; "ETHUSDT"; "SOLUSDT"; "XRPUSDT"]%string.

Definition TEST_MODE : bool := true.

(** The strings that [evaluate_conditions] and [analyze_symbol] return. *)
Definition signal_str (s : Signal) : string :=
  match s with
  | BUY => "BUY"
  | SELL => "SELL"
  | NEUTRAL => "NEUTRAL"
  end.

(** [repr] of a string of letters and digits, as the timeframe labels and
    the signal names are (nothing in them for Python to escape). *)
Definition py_repr (s : string) : string := ("'" ++ s ++ "'")%string.

(** [str] of the [per_tf] dict: [{'1m': 'BUY', '5m': 'SELL'}]. *)
Definition dict_str (d : dict) : string :=
  ("{" ++ String.concat ", "
            (map (fun kv => py_repr (fst kv) ++ ": "
                            ++ py_repr (signal_str (snd kv))) d)
       ++ "}")%string.

Definition newline : string := String "010"%char EmptyString.

(** The two non-ASCII pieces of the message literal, as the UTF-8 bytes
    of the source file. *)
Definition msg_icon : string :=
  String "195"%char (String "176"%char (String "197"%char (String "184"%char
  (String "226"%char (String "128"%char (String "156"%char
  (String "197"%char (String "160"%char EmptyString)))))))).

Definition msg_e_acute : string :=
  String "195"%char (String "131"%char (String "194"%char
  (String "169"%char EmptyString))).

Definition format_message (symbol : string) (consensus : Signal)
    (details : dict) : string :=
  (msg_icon ++ " " ++ symbol ++ newline
   ++ "Signal global : " ++ signal_str consensus ++ newline
   ++ "D" ++ msg_e_acute ++ "tails : " ++ dict_str details)%string.

Inductive Output : Type :=
| Printed (msg : string)     (* [print(msg)] *)
| Sent (msg : string).       (* [send_telegram_message(msg)] *)

Definition deliver (msg : string) : Output :=
  if TEST_MODE then Printed msg else Sent msg.

(** The [for symbol in SYMBOLS_FIXED] loop: what has been delivered so
    far, and the exception that ended the pass, if any. *)
Fixpoint run_symbols (fetch : Fetch) (symbols : list string)
    (out : list Output) : list Output * option Error :=
  match symbols with
  | [] => (out, None)
  | symbol :: rest =>
      match analyze_symbol fetch symbol with
      | inr e => (out, Some e)
      | inl (consensus, details) =>
          run_symbols fetch rest
            (out ++ [deliver (format_message symbol consensus details)])
      end
  end.

Definition main_cycle (fetch : Fetch) : list Output * option Error :=
  run_symbols fetch SYMBOLS_FIXED [].

(** What the pass delivers for one symbol whose analysis succeeds. *)
Definition delivered (fetch : Fetch) (symbol : string) (o : Output) : Prop :=
  exists consensus details,
    analyze_symbol fetch symbol = inl (consensus, details) /\
    o = Printed (format_message symbol consensus details).

(** ** What the properties are stated with *)


(** The EMA of the spec: [ema 0 = x 0],
    [ema t = a * x t + (1 - a) * ema (t-1)]. *)
Fixpoint ema_from (a prev : R) (xs : list R) : list R :=
  match xs with
  | [] => []
  | x :: r => let e := a * x + (1 - a) * prev in e :: ema_from a e r
  end.

Definition ema (a : R) (xs : list R) : list R :=
  match xs with
  | [] => []
  | x :: r => x :: ema_from a x r
  end.

(** Column [e] is defined on every row and follows the EMA recurrence of
    column [x] with smoothing factor [a]. *)
Definition ema_recurrence (a : R) (x e : list F) : Prop :=
  length e = length x /\
  (forall x0, nth_error x 0 = Some x0 ->
     is_num x0 /\ nth_error e 0 = Some x0) /\
  (forall t, (S t < length x)%nat ->
     exists xt p,
       nth_error x (S t) = Some (Num xt) /\
       nth_error e t = Some (Num p) /\
       nth_error e (S t) = Some (Num (a * xt + (1 - a) * p))).

(** Close-to-close changes, from row 1 on. *)
Fixpoint deltas_from (prev : R) (xs : list R) : list R :=
  match xs with
  | [] => []
  | x :: r => (x - prev) :: deltas_from x r
  end.

Definition deltas (xs : list R) : list R :=
  match xs with
  | [] => []
  | x :: r => deltas_from x r
  end.

(** The gains and losses that RSI smooths, from row 1 on. *)
Definition ups (df : list Candle) : list R :=
  map (Rmax 0) (deltas (map k_close df)).
Definition downs (df : list Candle) : list R :=
  map (fun d => -1 * Rmin 0 d) (deltas (map k_close df)).

(** One row of the RSI column, from the two smoothed averages. *)
Definition rsi_of (avg_up avg_down : F) : F :=
  fillna 50
    (fsub (num 100)
       (fdiv (num 100)
          (fadd (num 1) (fdiv avg_up (replace_zero_nan avg_down))))).

(** The largest lookback window of the rolling indicators. *)
Definition max_window : nat :=
  Nat.max ADX_WINDOW (Nat.max BB_WINDOW VOL_WINDOW).

(** The [w] values that end at row [i] of a column without NaN. *)
Definition win (w i : nat) (l : list R) : list R :=
  skipn (i + 1 - w) (firstn (i + 1) l).

(** Every field of a snapshot that the evaluator reads is a number. *)
Definition fully_defined (s : Snapshot) : Prop :=
  is_num (close s) /\ is_num (volume s) /\
  is_num (EMA_fast s) /\ is_num (EMA_slow s) /\
  is_num (MACD s) /\ is_num (MACD_signal s) /\
  is_num (RSI s) /\ is_num (ADX s) /\
  is_num (bb_upper s) /\ is_num (bb_lower s) /\ is_num (vol_ma s).

(** A column is causal when its first [n] rows depend on the first [n]
    candles only. *)
Definition causal (X : list Candle -> list F) : Prop :=
  forall n df, firstn n (X df) = X (firstn n df).

(** ADX in the spec's words: an undefined DX counts as 0, ADX is the
    simple moving average of DX over the window, and what is still
    undefined becomes 0. *)
Definition ADX_spec (df : list Candle) : list F :=
  map (fillna 0)
      (rolling ADX_WINDOW agg_mean (map (fillna 0) (Col.DX df))).

(** One pass of the loop body of [analyze_symbol]: fetch, compute, take the
    last row, evaluate. *)
Definition signal_of (fetch : Fetch) (symbol tf : string) : result Signal :=
  df <- fetch symbol tf LIMIT ;;
  latest <- iloc_last (compute_indicators df) ;;
  inl (evaluate_conditions latest).

(** The number of leading rows on which ADX cannot have a full window of
    defined DX: DX needs [ADX_WINDOW] rows and ADX needs [ADX_WINDOW] DX. *)
Definition adx_warmup : nat := 2 * ADX_WINDOW - 2.


(** [a] is not an infinity. *)
Definition not_inf (a : F) : Prop :=
  match a with
  | Inf _ => False
  | _ => True
  end.

(** ** Sample inputs *)

(** A snapshot that meets every BUY condition but the Bollinger breakout. *)
Definition veto_snapshot : Snapshot :=
  {| close := num 10; volume := num 10;
     EMA_fast := num 2; EMA_slow := num 1;
     MACD := num 1; MACD_signal := num 0;
     RSI := num 55; ADX := num 30;
     bb_upper := num 11; bb_lower := num 3; vol_ma := num 5 |}.

(** Flat candles, and a data source that answers every request with one
    of them. *)
Definition flat_candle : Candle :=
  {| k_high := 1; k_low := 1; k_close := 1; k_volume := 1 |}.


Definition flat2 : list Candle := [flat_candle; flat_candle].

(** Twenty-one flat candles: the shortest series with a full last row. *)
Definition flat21 : list Candle := repeat flat_candle 21.

(** Two series of twenty candles that share row 0 and differ in the
    volume of the rows after it. *)
Definition loud_candle : Candle :=
  {| k_high := 1; k_low := 1; k_close := 1; k_volume := 2 |}.

Definition quiet20 : list Candle := repeat flat_candle 20.
Definition loud20 : list Candle := flat_candle :: repeat loud_candle 19.

(** Twelve candles in one range, then fifteen in a range one unit higher:
    the only directional move is the step up at row 12. *)
Definition low_candle : Candle :=
  {| k_high := 2; k_low := 0; k_close := 1; k_volume := 1 |}.
Definition high_candle : Candle :=
  {| k_high := 3; k_low := 1; k_close := 2; k_volume := 1 |}.

Definition jump27 : list Candle :=
  repeat low_candle 12 ++ repeat high_candle 15.

(** A data source whose 15-minute request fails, one whose 15-minute frame
    is empty, and one that answers with five flat candles. *)
Definition failing_fetch : Fetch :=
  fun _ tf _ => if String.eqb tf "15m" then inr DataUnavailable
                else inl [flat_candle].

Definition empty_fetch : Fetch :=
  fun _ tf _ => if String.eqb tf "15m" then inl [] else inl [flat_candle].

Definition flat5 : list Candle := repeat flat_candle 5.

Definition short_fetch : Fetch := fun _ _ _ => inl flat5.

(** Three candles with rising closes: from row 1 on there are gains and no
    loss. *)
Definition rising3 : list Candle :=
  [ {| k_high := 1; k_low := 0; k_close := 1; k_volume := 1 |};
    {| k_high := 2; k_low := 1; k_close := 2; k_volume := 1 |};
    {| k_high := 3; k_low := 2; k_close := 3; k_volume := 1 |} ].

(** Three candles with falling closes. *)
Definition falling3 : list Candle :=
  [ {| k_high := 4; k_low := 3; k_close := 3; k_volume := 1 |};
    {| k_high := 3; k_low := 2; k_close := 2; k_volume := 1 |};
    {| k_high := 2; k_low := 1; k_close := 1; k_volume := 1 |} ].

(** * Properties *)

(** ** Reflection of the comparisons *)

Lemma Rltb_spec x y : Rltb x y = true <-> x < y.
Proof. unfold Rltb. destruct (Rlt_dec x y); split; intros; congruence || lra. Qed.

Lemma Rleb_spec x y : Rleb x y = true <-> x <= y.
Proof. unfold Rleb. destruct (Rle_dec x y); split; intros; congruence || lra. Qed.

Lemma flt_spec a b : flt a b = true <-> Flt a b.
Proof.
  destruct a as [|x|[|]], b as [|y|[|]]; cbn;
    try apply Rltb_spec; split; (discriminate || tauto || reflexivity).
Qed.

Lemma fle_spec a b : fle a b = true <-> Fle a b.
Proof.
  destruct a as [|x|[|]], b as [|y|[|]]; cbn;
    try apply Rleb_spec; split; (discriminate || tauto || reflexivity).
Qed.

Lemma fgt_spec a b : fgt a b = true <-> Fgt a b.
Proof. apply flt_spec. Qed.

Lemma fge_spec a b : fge a b = true <-> Fge a b.
Proof. apply fle_spec. Qed.

Lemma Flt_asym a b : Flt a b -> Flt b a -> False.
Proof.
  destruct a as [|x|[|]], b as [|y|[|]]; cbn; try tauto. lra.
Qed.

(** ** The signal evaluator *)

Lemma buy_branch_spec l :
  all [ema_buy l; macd_buy l; rsi_buy l; adx_ok l; vol_ok l; bb_buy l] = true
  <-> all_hold (buy_conditions l).
Proof.
  unfold all, all_hold, buy_conditions. cbn [forallb].
  rewrite !Forall_cons_iff, !andb_true_iff.
  unfold ema_buy, macd_buy, rsi_buy, adx_ok, vol_ok, bb_buy.
  rewrite andb_true_iff, !fgt_spec, !fge_spec, !fle_spec.
  intuition auto using Forall_nil.
Qed.

Lemma sell_branch_spec l :
  all [ema_sell l; macd_sell l; rsi_sell l; adx_ok l; vol_ok l; bb_sell l] = true
  <-> all_hold (sell_conditions l).
Proof.
  unfold all, all_hold, sell_conditions. cbn [forallb].
  rewrite !Forall_cons_iff, !andb_true_iff.
  unfold ema_sell, macd_sell, rsi_sell, adx_ok, vol_ok, bb_sell.
  rewrite andb_true_iff, !flt_spec, !fge_spec, !fle_spec.
  intuition auto using Forall_nil.
Qed.

Lemma buy_sell_disjoint l :
  all_hold (buy_conditions l) -> all_hold (sell_conditions l) -> False.
Proof.
  unfold all_hold, buy_conditions, sell_conditions. intros Hb Hs.
  inversion Hb as [|? ? Hb1 _]. inversion Hs as [|? ? Hs1 _].
  exact (Flt_asym _ _ Hs1 Hb1).
Qed.

(** A snapshot on which exactly one BUY condition fails satisfies at least
    one of the strict BUY conditions on the EMA pair and the MACD pair, and
    so fails the SELL conjunction too. *)
Lemma only_fails_not_buy k l :
  (k < 6)%nat -> only_fails k (buy_conditions l) -> ~ all_hold (buy_conditions l).
Proof.
  intros Hk H Hall. unfold all_hold in Hall.
  destruct (nth_error (buy_conditions l) k) as [p|] eqn:E.
  - destruct (H k p E) as [Hn _]. apply (Hn eq_refl).
    rewrite Forall_forall in Hall. apply Hall. eapply nth_error_In; eauto.
  - apply nth_error_None in E. cbn in E. lia.
Qed.

Lemma only_fails_not_sell k l :
  only_fails k (buy_conditions l) -> ~ all_hold (sell_conditions l).
Proof.
  intros H Hs. unfold all_hold, sell_conditions in Hs.
  inversion Hs as [|? ? Hs1 Hs']. inversion Hs' as [|? ? Hs2 _]. subst.
  destruct (Nat.eq_dec k 0) as [->|Hk0].
  - destruct (H 1%nat _ eq_refl) as [_ Hb]. apply (Flt_asym _ _ Hs2). apply Hb. lia.
  - destruct (H 0%nat _ eq_refl) as [_ Hb]. apply (Flt_asym _ _ Hs1). apply Hb. lia.
Qed.

(** C1.  [evaluate_conditions] returns BUY exactly when the six BUY
    conditions all hold (EMA_fast > EMA_slow, MACD > MACD_signal, RSI in the
    buy band, ADX >= threshold, volume >= vol_ma, close > bb_upper), SELL
    exactly when the six mirrored conditions all hold, and NEUTRAL exactly
    when neither conjunction holds.  In particular a snapshot on which one
    BUY condition (any of the six) fails and the other five hold is
    NEUTRAL. *)
Theorem evaluate_conditions_spec (l : Snapshot) :
  (evaluate_conditions l = BUY <-> all_hold (buy_conditions l)) /\
  (evaluate_conditions l = SELL <-> all_hold (sell_conditions l)) /\
  (evaluate_conditions l = NEUTRAL <->
     ~ all_hold (buy_conditions l) /\ ~ all_hold (sell_conditions l)) /\
  (forall k, (k < 6)%nat -> only_fails k (buy_conditions l) ->
     evaluate_conditions l = NEUTRAL).
Proof.
  pose proof (buy_branch_spec l) as Hb.
  pose proof (sell_branch_spec l) as Hs.
  pose proof (buy_sell_disjoint l) as Hd.
  assert (Hcore :
    (evaluate_conditions l = BUY <-> all_hold (buy_conditions l)) /\
    (evaluate_conditions l = SELL <-> all_hold (sell_conditions l)) /\
    (evaluate_conditions l = NEUTRAL <->
       ~ all_hold (buy_conditions l) /\ ~ all_hold (sell_conditions l))).
  { unfold evaluate_conditions.
    destruct (all [ema_buy l; macd_buy l; rsi_buy l; adx_ok l; vol_ok l; bb_buy l]) eqn:Eb;
    [| destruct (all [ema_sell l; macd_sell l; rsi_sell l; adx_ok l; vol_ok l; bb_sell l]) eqn:Es].
    - assert (B : all_hold (buy_conditions l)) by (apply Hb; reflexivity).
      repeat split; try discriminate; tauto.
    - assert (S0 : all_hold (sell_conditions l)) by (apply Hs; reflexivity).
      assert (NB : ~ all_hold (buy_conditions l)) by (intros B; apply Hb in B; congruence).
      repeat split; try discriminate; tauto.
    - assert (NB : ~ all_hold (buy_conditions l)) by (intros B; apply Hb in B; congruence).
      assert (NS : ~ all_hold (sell_conditions l)) by (intros S0; apply Hs in S0; congruence).
      repeat split; try discriminate; tauto. }
  destruct Hcore as (H1 & H2 & H3). repeat split; try tauto.
  intros k Hk Hf. apply H3. split.
  - eapply only_fails_not_buy; eauto.
  - eapply only_fails_not_sell; eauto.
Qed.

Lemma evaluate_conditions_spec_witness :
  only_fails 5 (buy_conditions veto_snapshot) /\
  evaluate_conditions veto_snapshot = NEUTRAL.
Proof.
  assert (H : only_fails 5 (buy_conditions veto_snapshot)).
  { intros i p Hi.
    assert (Hlt : forall a b : R, a < b -> Flt (num a) (num b))
      by (intros a b Hab; exact Hab).
    assert (Hle : forall a b : R, a <= b -> Fle (num a) (num b))
      by (intros a b Hab; exact Hab).
    destruct i as [|[|[|[|[|[|i]]]]]]; cbn in Hi;
      try (destruct i; discriminate Hi);
      inversion Hi; subst; clear Hi; split; intros Hk;
      try discriminate Hk; try (exfalso; apply Hk; reflexivity);
      unfold Fgt, Fge, RSI_BUY_MIN, RSI_BUY_MAX, ADX_THRESHOLD; cbn;
      try split; try (apply Hlt; lra); try (apply Hle; lra).
    intros Hxy. cbn in Hxy. lra. }
  split; [exact H |].
  apply (proj2 (proj2 (proj2 (evaluate_conditions_spec veto_snapshot))) 5%nat); [lia | exact H].
Defined.

(** C10.  The BUY conjunction and the SELL conjunction never hold
    together, so testing the SELL branch before the BUY branch gives the
    same signal. *)
Theorem buy_sell_exclusive (l : Snapshot) :
  ~ (all_hold (buy_conditions l) /\ all_hold (sell_conditions l)) /\
  evaluate_conditions_sell_first l = evaluate_conditions l.
Proof.
  split.
  - intros [B S0]. exact (buy_sell_disjoint l B S0).
  - unfold evaluate_conditions_sell_first, evaluate_conditions.
    destruct (all [ema_buy l; macd_buy l; rsi_buy l; adx_ok l; vol_ok l; bb_buy l]) eqn:Eb;
    destruct (all [ema_sell l; macd_sell l; rsi_sell l; adx_ok l; vol_ok l; bb_sell l]) eqn:Es;
    try reflexivity.
    exfalso. apply (buy_sell_disjoint l).
    + apply buy_branch_spec. exact Eb.
    + apply sell_branch_spec. exact Es.
Qed.

(** ** The consensus aggregator *)

Lemma dict_set_fresh d k v :
  ~ In k (map fst d) -> dict_set d k v = d ++ [(k, v)].
Proof.
  induction d as [|[k' v'] d IH]; cbn; intros Hk; [reflexivity|].
  destruct (String.eqb k' k) eqn:E.
  - apply String.eqb_eq in E. tauto.
  - rewrite IH by tauto. reflexivity.
Qed.


Lemma TIMEFRAMES_NoDup : NoDup TIMEFRAMES.
Proof.
  unfold TIMEFRAMES.
  repeat (constructor; [cbn; intuition discriminate|]). constructor.
Qed.


(** The aggregator answers whenever every fetch does and no frame is
    empty. *)
Lemma analyze_loop_total fetch symbol tfs :
  (forall tf, In tf tfs -> exists df, fetch symbol tf LIMIT = inl df /\ df <> []) ->
  forall signals per_tf, exists r, analyze_loop fetch symbol tfs signals per_tf = inl r.
Proof.
  induction tfs as [|tf rest IH]; intros Hf signals per_tf; cbn.
  - eauto.
  - destruct (Hf tf (or_introl eq_refl)) as (df & Ef & Hne).
    rewrite Ef. cbn. unfold iloc_last, compute_indicators.
    rewrite length_map, length_seq.
    destruct (nth_error (map (row df) (seq 0 (length df))) (length df - 1)) eqn:E.
    + cbn. apply IH. intros tf' Hin. apply Hf. right. exact Hin.
    + apply nth_error_None in E. rewrite length_map, length_seq in E.
      destruct df; [congruence | cbn in E; lia].
Qed.


Lemma Rltb_irrefl x : Rltb x x = false.
Proof. unfold Rltb. destruct (Rlt_dec x x); [lra | reflexivity]. Qed.




(** ** Columns: lengths and rows *)

Lemma length_map2 {A B C} (f : A -> B -> C) xs ys :
  length (map2 f xs ys) = Nat.min (length xs) (length ys).
Proof.
  revert ys. induction xs as [|x xs IH]; intros [|y ys]; cbn; auto.
Qed.

Lemma nth_error_map2 {A B C} (f : A -> B -> C) xs ys i :
  nth_error (map2 f xs ys) i =
  match nth_error xs i, nth_error ys i with
  | Some x, Some y => Some (f x y)
  | _, _ => None
  end.
Proof.
  revert ys i. induction xs as [|x xs IH]; intros [|y ys] [|i]; cbn; auto.
  destruct (nth_error xs i); reflexivity.
Qed.

Lemma map2_map_l {A A' B C} (f : A' -> B -> C) (g : A -> A') xs ys :
  map2 f (map g xs) ys = map2 (fun x y => f (g x) y) xs ys.
Proof.
  revert ys. induction xs as [|x xs IH]; intros [|y ys]; cbn; auto.
  now rewrite IH.
Qed.

Lemma map2_map_r {A B B' C} (f : A -> B' -> C) (g : B -> B') xs ys :
  map2 f xs (map g ys) = map2 (fun x y => f x (g y)) xs ys.
Proof.
  revert ys. induction xs as [|x xs IH]; intros [|y ys]; cbn; auto.
  now rewrite IH.
Qed.

Lemma map_map2 {A B C D} (g : C -> D) (f : A -> B -> C) xs ys :
  map g (map2 f xs ys) = map2 (fun x y => g (f x y)) xs ys.
Proof.
  revert ys. induction xs as [|x xs IH]; intros [|y ys]; cbn; auto.
  now rewrite IH.
Qed.

Lemma map2_same {A C} (f : A -> A -> C) xs :
  map2 f xs xs = map (fun x => f x x) xs.
Proof. induction xs as [|x xs IH]; cbn; auto. now rewrite IH. Qed.

Lemma length_shift_from p xs : length (shift_from p xs) = length xs.
Proof. revert p. induction xs as [|x xs IH]; intros p; cbn; auto. Qed.

Lemma length_shift xs : length (shift xs) = length xs.
Proof. apply length_shift_from. Qed.

Lemma length_ewm_from a st xs : length (ewm_from a st xs) = length xs.
Proof. revert st. induction xs as [|x xs IH]; intros st; cbn; auto. Qed.

Lemma length_ewm_mean a xs : length (ewm_mean a xs) = length xs.
Proof. destruct xs; cbn; [reflexivity|]. now rewrite length_ewm_from. Qed.

Lemma length_rolling w agg xs : length (rolling w agg xs) = length xs.
Proof. unfold rolling. now rewrite length_map, length_seq. Qed.

Lemma length_bfill xs : length (bfill xs) = length xs.
Proof.
  induction xs as [|[|x|s] xs IH]; cbn; auto.
Qed.

Lemma at_row_nth_error col i v :
  nth_error col i = Some v -> at_row col i = v.
Proof. intros H. unfold at_row. now apply nth_error_nth. Qed.

Lemma nth_error_at_row col i :
  (i < length col)%nat -> nth_error col i = Some (at_row col i).
Proof. intros H. unfold at_row. now apply nth_error_nth'. Qed.

(** ** Exponential smoothing *)

Lemma length_ema_from a p xs : length (ema_from a p xs) = length xs.
Proof. revert p. induction xs as [|x xs IH]; intros p; cbn; auto. Qed.

Lemma length_ema a xs : length (ema a xs) = length xs.
Proof. destruct xs; cbn; [reflexivity|]. now rewrite length_ema_from. Qed.

Lemma ewm_step_nums a w x :
  ewm_step a (Num w, 1) (Num x) = (Num (a * x + (1 - a) * w), 1).
Proof.
  cbn. f_equal. f_equal. field. lra.
Qed.

Lemma ewm_from_nums a w xs :
  ewm_from a (Num w, 1) (map num xs) = map num (ema_from a w xs).
Proof.
  revert w. induction xs as [|x xs IH]; intros w; [reflexivity|].
  cbn [map ewm_from ema_from]. cbv zeta. unfold num at 1 2.
  rewrite ewm_step_nums. cbn [fst]. rewrite IH. reflexivity.
Qed.

(** On a column without NaN the pandas mean is the EMA recurrence. *)
Lemma ewm_mean_nums a xs :
  ewm_mean a (map num xs) = map num (ema a xs).
Proof.
  destruct xs as [|x xs]; [reflexivity|].
  cbn [map ewm_mean ema]. f_equal. apply ewm_from_nums.
Qed.

(** A column whose row 0 is NaN (as [diff] gives) starts at row 1. *)
Lemma ewm_mean_nan_nums a xs :
  ewm_mean a (NaN :: map num xs) = NaN :: map num (ema a xs).
Proof.
  cbn [ewm_mean]. f_equal. destruct xs as [|x xs]; [reflexivity|].
  cbn [map ewm_from ema]. f_equal. apply ewm_from_nums.
Qed.

Lemma ema_from_nth_S a r :
  forall x0 t x p,
    nth_error r t = Some x ->
    nth_error (x0 :: ema_from a x0 r) t = Some p ->
    nth_error (ema_from a x0 r) t = Some (a * x + (1 - a) * p).
Proof.
  induction r as [|x1 r IH]; intros x0 t x p Hx Hp.
  - destruct t; discriminate.
  - destruct t as [|t]; cbn in Hx, Hp |- *.
    + inversion Hx; inversion Hp; subst. reflexivity.
    + apply IH; assumption.
Qed.

Lemma ema_nth_S a xs t x p :
  nth_error xs (S t) = Some x ->
  nth_error (ema a xs) t = Some p ->
  nth_error (ema a xs) (S t) = Some (a * x + (1 - a) * p).
Proof.
  destruct xs as [|x0 r]; [discriminate|]. cbn [ema nth_error].
  apply ema_from_nth_S.
Qed.

Lemma ema_recurrence_nums a xs :
  ema_recurrence a (map num xs) (map num (ema a xs)).
Proof.
  unfold ema_recurrence. rewrite !length_map, length_ema.
  split; [reflexivity|]. split.
  - intros x0 H0. destruct xs as [|x r]; [discriminate|].
    cbn in H0 |- *. inversion H0; subst. split; [exists x|]; reflexivity.
  - intros t Ht.
    destruct (nth_error xs (S t)) as [xt|] eqn:Ex;
      [| apply nth_error_None in Ex; lia].
    destruct (nth_error (ema a xs) t) as [p|] eqn:Ep;
      [| apply nth_error_None in Ep; rewrite length_ema in Ep; lia].
    exists xt, p. rewrite !nth_error_map, Ex, Ep.
    rewrite (ema_nth_S a xs t xt p Ex Ep). repeat split; reflexivity.
Qed.

Lemma map2_fsub_nums xs ys :
  map2 fsub (map num xs) (map num ys) = map num (map2 Rminus xs ys).
Proof.
  revert ys. induction xs as [|x xs IH]; intros [|y ys]; cbn; auto.
  now rewrite IH.
Qed.

Lemma MACD_nums df :
  Col.MACD df =
  map num (map2 Rminus (ema (alpha_span MACD_FAST) (map k_close df))
                       (ema (alpha_span MACD_SLOW) (map k_close df))).
Proof.
  unfold Col.MACD, Col.ema_fast, Col.ema_slow, Col.close.
  rewrite <- (map_map k_close num), !ewm_mean_nums.
  apply map2_fsub_nums.
Qed.

(** C7.  Every EMA the engine computes on the close column is defined on
    every row and follows [ema 0 = close 0],
    [ema t = a * close t + (1 - a) * ema (t-1)] with [a = 2 / (span + 1)],
    for every span; MACD is the row-wise difference of the fast and the
    slow EMA, and MACD_signal follows the same recurrence on the MACD
    column with the signal span. *)
Theorem ema_macd_definitions (df : list Candle) :
  (forall span : nat,
     (1 <= span)%nat ->
     ema_recurrence (2 / (INR span + 1)) (Col.close df)
                    (ewm_mean (alpha_span span) (Col.close df))) /\
  ema_recurrence (2 / (INR EMA_FAST + 1)) (Col.close df) (Col.EMA_fast df) /\
  ema_recurrence (2 / (INR EMA_SLOW + 1)) (Col.close df) (Col.EMA_slow df) /\
  ema_recurrence (2 / (INR MACD_FAST + 1)) (Col.close df) (Col.ema_fast df) /\
  ema_recurrence (2 / (INR MACD_SLOW + 1)) (Col.close df) (Col.ema_slow df) /\
  (forall t, (t < length df)%nat ->
     exists f s,
       nth_error (Col.ema_fast df) t = Some (Num f) /\
       nth_error (Col.ema_slow df) t = Some (Num s) /\
       nth_error (Col.MACD df) t = Some (Num (f - s))) /\
  ema_recurrence (2 / (INR MACD_SIGNAL + 1)) (Col.MACD df) (Col.MACD_signal df).
Proof.
  assert (Hgen : forall span : nat,
     ema_recurrence (2 / (INR span + 1)) (Col.close df)
                    (ewm_mean (alpha_span span) (Col.close df))).
  { intros span. unfold Col.close. rewrite <- (map_map k_close num), ewm_mean_nums.
    apply ema_recurrence_nums. }
  split; [intros span _; apply Hgen|].
  split; [apply Hgen|]. split; [apply Hgen|].
  split; [apply Hgen|]. split; [apply Hgen|]. split.
  - intros t Ht. unfold Col.MACD.
    destruct (Hgen MACD_FAST) as (Lf & _ & _).
    destruct (Hgen MACD_SLOW) as (Ls & _ & _).
    fold (Col.ema_fast df) in Lf. fold (Col.ema_slow df) in Ls.
    unfold Col.close in Lf, Ls. rewrite length_map in Lf, Ls.
    pose proof (MACD_nums df) as HM. unfold Col.MACD in HM.
    revert Lf Ls HM. unfold Col.ema_fast, Col.ema_slow, Col.close.
    rewrite <- (map_map k_close num), !ewm_mean_nums. intros Lf Ls HM.
    rewrite !length_map in Lf, Ls.
    destruct (nth_error (ema (alpha_span MACD_FAST) (map k_close df)) t) as [f|] eqn:Ef;
      [| apply nth_error_None in Ef; lia].
    destruct (nth_error (ema (alpha_span MACD_SLOW) (map k_close df)) t) as [s|] eqn:Es;
      [| apply nth_error_None in Es; lia].
    exists f, s. rewrite nth_error_map2, !nth_error_map, Ef, Es. repeat split.
  - rewrite MACD_nums. unfold Col.MACD_signal. rewrite MACD_nums, ewm_mean_nums.
    apply ema_recurrence_nums.
Qed.

(** ** RSI *)

Lemma diff_nums_from p cs :
  map2 fsub (map num cs) (shift_from (Num p) (map num cs)) =
  map num (deltas_from p cs).
Proof.
  revert p. induction cs as [|c cs IH]; intros p; [reflexivity|].
  cbn [map shift_from map2 deltas_from]. f_equal. apply IH.
Qed.

Lemma delta_cons k df :
  Col.delta (k :: df) = NaN :: map num (deltas (map k_close (k :: df))).
Proof.
  unfold Col.delta, diff, shift, Col.close.
  cbn [map shift_from map2 deltas]. f_equal.
  rewrite <- (map_map k_close num). apply diff_nums_from.
Qed.

Lemma up_cons k df : Col.up (k :: df) = NaN :: map num (ups (k :: df)).
Proof.
  unfold Col.up, clip_lower, ups. rewrite delta_cons.
  cbn [map option_map]. f_equal. rewrite !map_map. reflexivity.
Qed.

Lemma down_cons k df : Col.down (k :: df) = NaN :: map num (downs (k :: df)).
Proof.
  unfold Col.down, clip_upper, downs. rewrite delta_cons.
  cbn [map option_map]. f_equal. rewrite !map_map. reflexivity.
Qed.

Lemma ma_up_cons k df :
  Col.ma_up (k :: df) =
  NaN :: map num (ema (alpha_com (RSI_WINDOW - 1)) (ups (k :: df))).
Proof. unfold Col.ma_up. rewrite up_cons. apply ewm_mean_nan_nums. Qed.

Lemma ma_down_cons k df :
  Col.ma_down (k :: df) =
  NaN :: map num (ema (alpha_com (RSI_WINDOW - 1)) (downs (k :: df))).
Proof. unfold Col.ma_down. rewrite down_cons. apply ewm_mean_nan_nums. Qed.

Lemma RSI_rsi_of df :
  Col.RSI df = map2 rsi_of (Col.ma_up df) (Col.ma_down df).
Proof.
  unfold Col.RSI, Col.RSI_raw, Col.rs.
  rewrite map_map, map2_map_r, map_map2. reflexivity.
Qed.

Lemma length_deltas_from p xs : length (deltas_from p xs) = length xs.
Proof. revert p. induction xs as [|x xs IH]; intros p; cbn; auto. Qed.

Lemma length_ups k df : length (ups (k :: df)) = length df.
Proof. unfold ups. cbn. now rewrite length_map, length_deltas_from, length_map. Qed.

Lemma length_downs k df : length (downs (k :: df)) = length df.
Proof. unfold downs. cbn. now rewrite length_map, length_deltas_from, length_map. Qed.

Lemma length_RSI df : length (Col.RSI df) = length df.
Proof.
  destruct df as [|k df]; [reflexivity|].
  rewrite RSI_rsi_of, length_map2, ma_up_cons, ma_down_cons. cbn [length].
  rewrite !length_map, !length_ema, length_ups, length_downs. lia.
Qed.

Lemma alpha_com_range n : 0 <= alpha_com n <= 1.
Proof.
  unfold alpha_com. pose proof (pos_INR n) as Hn.
  assert (H1 : 0 < 1 + INR n) by lra.
  split.
  - apply Rlt_le. apply Rdiv_lt_0_compat; lra.
  - apply (Rmult_le_reg_r (1 + INR n)); [exact H1|].
    unfold Rdiv. rewrite Rmult_assoc, Rinv_l by lra. lra.
Qed.

Lemma ema_from_nonneg a p xs :
  0 <= a <= 1 -> 0 <= p -> Forall (fun x => 0 <= x) xs ->
  Forall (fun x => 0 <= x) (ema_from a p xs).
Proof.
  intros Ha. revert p. induction xs as [|x xs IH]; intros p Hp Hxs; cbn.
  - constructor.
  - inversion Hxs as [|? ? Hx Hxs']; subst.
    assert (He : 0 <= a * x + (1 - a) * p) by nra.
    constructor; [exact He|]. apply IH; assumption.
Qed.

Lemma ema_nonneg a xs :
  0 <= a <= 1 -> Forall (fun x => 0 <= x) xs ->
  Forall (fun x => 0 <= x) (ema a xs).
Proof.
  intros Ha Hxs. destruct xs as [|x xs]; cbn; [constructor|].
  inversion Hxs; subst. constructor; [assumption|].
  apply ema_from_nonneg; assumption.
Qed.

Lemma ups_nonneg df : Forall (fun x => 0 <= x) (ups df).
Proof.
  unfold ups. apply Forall_map, Forall_forall. intros d _. apply Rmax_l.
Qed.

Lemma downs_nonneg df : Forall (fun x => 0 <= x) (downs df).
Proof.
  unfold downs. apply Forall_map, Forall_forall. intros d _.
  pose proof (Rmin_l 0 d). lra.
Qed.

Lemma nth_map_num l t :
  (t < length l)%nat -> nth t (map num l) NaN = Num (nth t l 0).
Proof.
  intros H. rewrite (nth_indep _ NaN (num 0)) by (rewrite length_map; exact H).
  apply (map_nth num).
Qed.

(** Both averages are non-negative wherever they are defined, and defined
    on the same rows (every row but row 0). *)
Lemma ma_rows df t :
  (t < length df)%nat ->
  (t = 0%nat /\ at_row (Col.ma_up df) t = NaN /\ at_row (Col.ma_down df) t = NaN) \/
  (exists u d, at_row (Col.ma_up df) t = Num u /\
               at_row (Col.ma_down df) t = Num d /\ 0 <= u /\ 0 <= d).
Proof.
  intros Ht. destruct df as [|k df]; [cbn in Ht; lia|].
  rewrite ma_up_cons, ma_down_cons. destruct t as [|t].
  - left. repeat split.
  - right. cbn in Ht. unfold at_row. cbn [nth].
    pose proof (ema_nonneg _ _ (alpha_com_range (RSI_WINDOW - 1)) (ups_nonneg (k :: df))) as Hu.
    pose proof (ema_nonneg _ _ (alpha_com_range (RSI_WINDOW - 1)) (downs_nonneg (k :: df))) as Hd.
    set (eu := ema (alpha_com (RSI_WINDOW - 1)) (ups (k :: df))) in *.
    set (ed := ema (alpha_com (RSI_WINDOW - 1)) (downs (k :: df))) in *.
    assert (Lu : (t < length eu)%nat)
      by (unfold eu; rewrite length_ema, length_ups; lia).
    assert (Ld : (t < length ed)%nat)
      by (unfold ed; rewrite length_ema, length_downs; lia).
    exists (nth t eu 0), (nth t ed 0).
    rewrite Forall_forall in Hu, Hd.
    rewrite !nth_map_num by assumption. repeat split.
    + apply Hu. now apply nth_In.
    + apply Hd. now apply nth_In.
Qed.

(** The divisor of [100 / (1 + rs)] is at least 1. *)
Lemma rsi_divisor_pos u d : 0 <= u -> 0 < d -> 1 <= 1 + u / d.
Proof.
  intros Hu Hd. assert (0 <= u / d); [|lra].
  unfold Rdiv. apply Rmult_le_pos; [exact Hu|].
  apply Rlt_le, Rinv_0_lt_compat, Hd.
Qed.

Lemma rsi_of_zero u : rsi_of u (Num 0) = Num 50.
Proof.
  unfold rsi_of, replace_zero_nan.
  destruct (Req_dec_T 0 0) as [_|N]; [|exfalso; apply N; reflexivity].
  destruct u; reflexivity.
Qed.

Lemma rsi_of_nan_r u : rsi_of u NaN = Num 50.
Proof. destruct u; reflexivity. Qed.

Lemma rsi_of_nan_l d : rsi_of NaN d = Num 50.
Proof. reflexivity. Qed.

Lemma rsi_of_nums u d :
  0 <= u -> 0 <= d -> d <> 0 ->
  rsi_of (Num u) (Num d) = Num (100 - 100 / (1 + u / d)).
Proof.
  intros Hu Hd Hnz. pose proof (rsi_divisor_pos u d Hu) as Hdiv.
  unfold rsi_of, replace_zero_nan, fdiv, fadd, fsub, num.
  destruct (Req_dec_T d 0) as [E|_]; [contradiction|].
  destruct (Req_dec_T d 0) as [E|_]; [contradiction|].
  destruct (Req_dec_T (1 + u / d) 0) as [E|_]; [lra|]. reflexivity.
Qed.

Lemma rsi_value_range u d :
  0 <= u -> 0 < d -> 0 <= 100 - 100 / (1 + u / d) <= 100.
Proof.
  intros Hu Hd. pose proof (rsi_divisor_pos u d Hu Hd) as H1.
  set (q := 1 + u / d) in *.
  assert (Hq : 0 < / q) by (apply Rinv_0_lt_compat; lra).
  assert (Hq1 : / q <= 1).
  { rewrite <- Rinv_1. apply Rinv_le_contravar; lra. }
  unfold Rdiv. nra.
Qed.

Lemma length_ma_up df : length (Col.ma_up df) = length df.
Proof.
  destruct df as [|k df]; [reflexivity|]. rewrite ma_up_cons. cbn [length].
  now rewrite length_map, length_ema, length_ups.
Qed.

Lemma length_ma_down df : length (Col.ma_down df) = length df.
Proof.
  destruct df as [|k df]; [reflexivity|]. rewrite ma_down_cons. cbn [length].
  now rewrite length_map, length_ema, length_downs.
Qed.

Lemma RSI_row df t :
  (t < length df)%nat ->
  at_row (Col.RSI df) t =
  rsi_of (at_row (Col.ma_up df) t) (at_row (Col.ma_down df) t).
Proof.
  intros Ht. apply at_row_nth_error. rewrite RSI_rsi_of, nth_error_map2.
  rewrite !nth_error_at_row by (rewrite ?length_ma_up, ?length_ma_down; exact Ht).
  reflexivity.
Qed.

(** C5.  On every row where the smoothed down-average is 0 the RSI is 50;
    where it is a non-zero number, the up-average is a number too, the
    divisor [1 + avg_up / avg_down] is not zero and the RSI is
    [100 - 100 / (1 + avg_up / avg_down)].  The down-average is a number on
    every row but row 0, where RSI is 50 as well. *)
Theorem rsi_degeneracy_guard (df : list Candle) (t : nat) :
  (t < length df)%nat ->
  (at_row (Col.ma_down df) t = Num 0 -> at_row (Col.RSI df) t = Num 50) /\
  (forall d,
     at_row (Col.ma_down df) t = Num d -> d <> 0 ->
     exists u, at_row (Col.ma_up df) t = Num u /\
               1 + u / d <> 0 /\
               at_row (Col.RSI df) t = Num (100 - 100 / (1 + u / d))) /\
  (at_row (Col.ma_down df) t = NaN ->
     t = 0%nat /\ at_row (Col.RSI df) t = Num 50).
Proof.
  intros Ht. rewrite (RSI_row df t Ht).
  destruct (ma_rows df t Ht) as [(Ht0 & Hu & Hn)|(u & d' & Hu & Hd' & Hu0 & Hd0)].
  - rewrite Hu, Hn. split; [discriminate|]. split; [discriminate|].
    intros _. split; [exact Ht0 | reflexivity].
  - rewrite Hu, Hd'. split; [|split].
    + intros E. inversion E; subst d'. apply rsi_of_zero.
    + intros d E Hnz. inversion E; subst d'. exists u.
      split; [reflexivity|]. split.
      * pose proof (rsi_divisor_pos u d Hu0). lra.
      * apply rsi_of_nums; assumption.
    + discriminate.
Qed.

(** After one gain and no loss the up-average is 1 and the down-average
    is 0. *)
Lemma rising3_ma_up : at_row (Col.ma_up rising3) 1 = Num 1.
Proof.
  unfold rising3. rewrite ma_up_cons. unfold at_row, ups.
  cbn [nth map deltas deltas_from ema k_close]. unfold num. f_equal.
  unfold Rmax. destruct (Rle_dec 0 (2 - 1)); lra.
Qed.

Lemma rising3_ma_down : at_row (Col.ma_down rising3) 1 = Num 0.
Proof.
  unfold rising3. rewrite ma_down_cons. unfold at_row, downs.
  cbn [nth map deltas deltas_from ema k_close]. unfold num. f_equal.
  unfold Rmin. destruct (Rle_dec 0 (2 - 1)); lra.
Qed.

(** Dividing a gain by a zero loss gives an infinity, and the RSI formula
    on an infinity of either sign gives 100: it is [replace(0, nan)] on
    the divisor that turns the row into NaN, and [fillna(50)] into 50. *)
Lemma rsi_formula_on_zero_loss u :
  0 < u ->
  fdiv (Num u) (Num 0) = Inf false /\
  forall s,
    fillna 50 (fsub (num 100) (fdiv (num 100) (fadd (num 1) (Inf s))))
    = Num 100.
Proof.
  intros Hu. split.
  - unfold fdiv, Rneg.
    destruct (Req_dec_T 0 0) as [_|N]; [|now contradiction N].
    destruct (Req_dec_T u 0) as [E|_]; [lra|].
    destruct (Rlt_dec u 0) as [L|_]; [lra | reflexivity].
  - intros s. cbn. f_equal. lra.
Qed.

Lemma rsi_degeneracy_guard_witness :
  (1 < length rising3)%nat /\
  at_row (Col.ma_up rising3) 1 = Num 1 /\
  at_row (Col.ma_down rising3) 1 = Num 0 /\
  at_row (Col.RSI rising3) 1 = Num 50.
Proof.
  assert (H : (1 < length rising3)%nat) by (cbn; lia).
  split; [exact H|]. split; [exact rising3_ma_up|].
  split; [exact rising3_ma_down|].
  exact (proj1 (rsi_degeneracy_guard rising3 1 H) rising3_ma_down).
Defined.

Lemma RSI_in_range (df : list Candle) (t : nat) :
  (t < length df)%nat ->
  exists r, at_row (Col.RSI df) t = Num r /\ 0 <= r <= 100.
Proof.
  intros Ht. rewrite (RSI_row df t Ht).
  destruct (ma_rows df t Ht) as [(_ & Hu & Hd)|(u & d & Hu & Hd & Hu0 & Hd0)].
  - rewrite Hu, Hd. exists 50. split; [reflexivity|lra].
  - rewrite Hu, Hd. destruct (Req_dec_T d 0) as [->|Hnz].
    + exists 50. split; [apply rsi_of_zero|lra].
    + exists (100 - 100 / (1 + u / d)). split.
      * apply rsi_of_nums; assumption.
      * apply rsi_value_range; lra.
Qed.

(** C9.  Every RSI value the engine produces, on every row of every
    series, is a number between 0 and 100. *)
Theorem rsi_range (df : list Candle) (t : nat) :
  (t < length df)%nat ->
  exists r, at_row (Col.RSI df) t = Num r /\ 0 <= r <= 100.
Proof. exact (RSI_in_range df t). Qed.

Lemma rsi_range_witness :
  (1 < length flat2)%nat /\
  exists r, at_row (Col.RSI flat2) 1 = Num r /\ 0 <= r <= 100.
Proof.
  split; [cbn; lia|]. apply (rsi_range flat2 1). cbn. lia.
Defined.

(** ** Rolling windows *)

Lemma rolling_row w agg xs i :
  (i < length xs)%nat ->
  at_row (rolling w agg xs) i =
  match window w i xs with
  | Some wn => if has_nan wn then NaN else agg wn
  | None => NaN
  end.
Proof.
  intros Hi. apply at_row_nth_error. unfold rolling.
  rewrite nth_error_map, nth_error_seq.
  destruct (Nat.ltb_spec i (length xs)) as [_|H]; [reflexivity|lia].
Qed.


Lemma has_nan_nums l : has_nan (map num l) = false.
Proof. induction l as [|x l IH]; cbn; [reflexivity | exact IH]. Qed.

Lemma agg_sum_nums l : agg_sum (map num l) = Num (Rsum l).
Proof.
  induction l as [|x l IH]; [reflexivity|].
  change (agg_sum (map num (x :: l))) with (fadd (Num x) (agg_sum (map num l))).
  rewrite IH. reflexivity.
Qed.

Lemma INR_length_nz {A} (l : list A) : l <> [] -> INR (length l) <> 0.
Proof. intros H. apply not_0_INR. destruct l; [congruence | discriminate]. Qed.

Lemma agg_mean_nums l : l <> [] -> agg_mean (map num l) = Num (mean_R l).
Proof.
  intros H. unfold agg_mean, fdiv, num. rewrite agg_sum_nums, length_map.
  destruct (Req_dec_T (INR (length l)) 0) as [E|_]; [|reflexivity].
  now apply INR_length_nz in E.
Qed.

(** The sample standard deviation of real values. *)
Lemma agg_std_nums l :
  (1 < length l)%nat ->
  agg_std (map num l) =
  Num (sqrt (Rsum (map (fun x => (x - mean_R l) * (x - mean_R l)) l)
             / (INR (length l) - 1))).
Proof.
  intros H. unfold agg_std. rewrite length_map.
  destruct (Nat.leb_spec (length l) 1) as [Hle|_]; [lia|]. cbv zeta.
  rewrite agg_mean_nums by (destruct l; [cbn in H; lia | discriminate]).
  rewrite map_map.
  change (fun x : R => fmul (fsub (num x) (Num (mean_R l)))
                            (fsub (num x) (Num (mean_R l))))
    with (fun x : R => num ((x - mean_R l) * (x - mean_R l))).
  rewrite <- (map_map (fun x => (x - mean_R l) * (x - mean_R l)) num).
  rewrite agg_sum_nums. unfold fdiv, num.
  destruct (Req_dec_T (INR (length l) - 1) 0) as [E|_]; [|reflexivity].
  exfalso. assert (1 < INR (length l)); [|lra].
  change 1 with (INR 1). now apply lt_INR.
Qed.

Lemma window_nums w i l :
  (w <= i + 1)%nat -> window w i (map num l) = Some (map num (win w i l)).
Proof.
  intros H. unfold window, win.
  destruct (Nat.leb_spec w (i + 1)) as [_|H']; [|lia].
  now rewrite firstn_map, skipn_map.
Qed.

Lemma window_short w i xs : (i + 1 < w)%nat -> window w i xs = None.
Proof.
  intros H. unfold window. destruct (Nat.leb_spec w (i + 1)); [lia|reflexivity].
Qed.

Lemma length_win w i l :
  (w <= i + 1)%nat -> (i < length l)%nat -> length (win w i l) = w.
Proof.
  intros Hw Hi. unfold win. rewrite length_skipn, length_firstn. lia.
Qed.

(** On a column without NaN a full window always has a value. *)
Lemma rolling_nums_row w agg l i :
  (w <= i + 1)%nat -> (i < length l)%nat ->
  at_row (rolling w agg (map num l)) i = agg (map num (win w i l)).
Proof.
  intros Hw Hi. rewrite rolling_row by (rewrite length_map; exact Hi).
  now rewrite window_nums, has_nan_nums.
Qed.

Lemma rolling_short_row w agg xs i :
  (i + 1 < w)%nat -> (i < length xs)%nat -> at_row (rolling w agg xs) i = NaN.
Proof.
  intros Hw Hi. rewrite rolling_row by exact Hi. now rewrite window_short.
Qed.

Lemma Forall_firstn {A} (P : A -> Prop) n l :
  Forall P l -> Forall P (firstn n l).
Proof.
  revert l. induction n as [|n IH]; intros l H; [constructor|].
  destruct H; cbn; constructor; auto.
Qed.

Lemma Forall_skipn {A} (P : A -> Prop) n l :
  Forall P l -> Forall P (skipn n l).
Proof.
  revert l. induction n as [|n IH]; intros l H; [exact H|].
  destruct H; cbn; [constructor|auto].
Qed.

Lemma Forall_win P w i l : Forall P l -> Forall P (win w i l).
Proof. intros H. unfold win. now apply Forall_skipn, Forall_firstn. Qed.

(** ** Flat series *)

Lemma Rsum_flat c l : Forall (eq c) l -> Rsum l = INR (length l) * c.
Proof.
  induction 1 as [|x l Hx _ IH].
  - cbn. lra.
  - subst x. change (Rsum (c :: l)) with (c + Rsum l).
    rewrite IH. change (length (c :: l)) with (S (length l)).
    rewrite S_INR. lra.
Qed.

Lemma mean_flat c l : Forall (eq c) l -> l <> [] -> mean_R l = c.
Proof.
  intros H Hne. unfold mean_R. rewrite (Rsum_flat c l H).
  assert (Hn : INR (length l) <> 0).
  { apply not_0_INR. destruct l; [congruence|discriminate]. }
  field. exact Hn.
Qed.

Lemma std_flat (c : R) l :
  Forall (eq c) l -> (1 < length l)%nat -> agg_std (map num l) = Num 0.
Proof.
  intros H Hl. rewrite agg_std_nums by exact Hl. f_equal.
  assert (Hm : mean_R l = c) by (apply mean_flat; [exact H | destruct l; [cbn in Hl; lia | discriminate]]).
  rewrite Hm.
  assert (Hz : Rsum (map (fun x => (x - c) * (x - c)) l) = 0).
  { rewrite (Rsum_flat 0).
    - lra.
    - apply Forall_map. eapply Forall_impl; [|exact H].
      intros x <-. lra. }
  rewrite Hz. unfold Rdiv. rewrite Rmult_0_l. apply sqrt_0.
Qed.

Lemma ema_from_flat a c xs :
  Forall (eq c) xs -> ema_from a c xs = xs.
Proof.
  induction 1 as [|x xs Hx _ IH]; [reflexivity|]. subst x.
  cbn [ema_from]. cbv zeta.
  replace (a * c + (1 - a) * c) with c by lra. now rewrite IH.
Qed.

Lemma ema_flat a c xs : Forall (eq c) xs -> ema a xs = xs.
Proof.
  intros H. destruct H as [|x xs Hx H]; [reflexivity|]. subst x.
  cbn [ema]. now rewrite ema_from_flat.
Qed.

Lemma closes_flat c df :
  Forall (fun k => k_close k = c) df -> Forall (eq c) (map k_close df).
Proof.
  intros H. apply Forall_map. eapply Forall_impl; [|exact H].
  intros k Hk. now symmetry.
Qed.

Lemma nth_flat (c : R) l i : Forall (eq c) l -> nth i l c = c.
Proof.
  intros H. destruct (Nat.lt_ge_cases i (length l)) as [Hi|Hi].
  - rewrite Forall_forall in H. symmetry. apply H. now apply nth_In.
  - now apply nth_overflow.
Qed.

Lemma at_row_nums l i :
  (i < length l)%nat -> at_row (map num l) i = Num (nth i l 0).
Proof. apply nth_map_num. Qed.

Lemma at_row_flat c l i :
  Forall (eq c) l -> (i < length l)%nat -> at_row (map num l) i = Num c.
Proof.
  intros H Hi. rewrite at_row_nums by exact Hi. f_equal.
  rewrite (nth_indep _ 0 c) by exact Hi. now apply nth_flat.
Qed.

Lemma ewm_close_flat a c df i :
  Forall (fun k => k_close k = c) df -> (i < length df)%nat ->
  at_row (ewm_mean a (Col.close df)) i = Num c.
Proof.
  intros H Hi. unfold Col.close. rewrite <- (map_map k_close num), ewm_mean_nums.
  rewrite (ema_flat a c) by now apply closes_flat.
  apply at_row_flat; [now apply closes_flat | now rewrite length_map].
Qed.

Lemma MACD_flat c df i :
  Forall (fun k => k_close k = c) df -> (i < length df)%nat ->
  at_row (Col.MACD df) i = Num 0.
Proof.
  intros H Hi. rewrite MACD_nums.
  rewrite !(ema_flat _ c) by now apply closes_flat.
  rewrite map2_same. apply at_row_flat.
  - apply Forall_map. apply Forall_forall. intros x _. lra.
  - now rewrite !length_map.
Qed.

Lemma deltas_from_flat c xs :
  Forall (eq c) xs -> Forall (@eq R 0) (deltas_from c xs).
Proof.
  induction 1 as [|x xs Hx _ IH]; cbn; constructor; subst; [lra|assumption].
Qed.

Lemma downs_flat c df :
  Forall (fun k => k_close k = c) df -> Forall (@eq R 0) (downs df).
Proof.
  intros H. apply closes_flat in H. unfold downs.
  destruct H as [|x xs Hx H]; [constructor|]. subst x. cbn [deltas].
  apply Forall_map. eapply Forall_impl; [|apply deltas_from_flat; exact H].
  intros d <-. unfold Rmin. destruct (Rle_dec 0 0); lra.
Qed.

Lemma RSI_flat c df i :
  Forall (fun k => k_close k = c) df -> (i < length df)%nat ->
  at_row (Col.RSI df) i = Num 50.
Proof.
  intros H Hi. rewrite RSI_row by exact Hi.
  destruct df as [|k df]; [cbn in Hi; lia|].
  destruct i as [|i].
  - rewrite ma_up_cons. apply rsi_of_nan_l.
  - rewrite ma_down_cons.
    rewrite (ema_flat _ 0) by (eapply downs_flat; exact H).
    change (at_row (NaN :: map num (downs (k :: df))) (S i))
      with (at_row (map num (downs (k :: df))) i).
    rewrite (at_row_flat 0).
    + apply rsi_of_zero.
    + eapply downs_flat; exact H.
    + rewrite length_downs. cbn in Hi. lia.
Qed.

Lemma win_ne w i l :
  (0 < w)%nat -> (w <= i + 1)%nat -> (i < length l)%nat -> win w i l <> [].
Proof.
  intros H0 Hw Hi E. apply (f_equal (@length R)) in E.
  rewrite length_win in E by assumption. cbn in E. lia.
Qed.

Lemma rolling_mean_nums_row w l i :
  (0 < w)%nat -> (w <= i + 1)%nat -> (i < length l)%nat ->
  at_row (rolling w agg_mean (map num l)) i = Num (mean_R (win w i l)).
Proof.
  intros H0 Hw Hi. rewrite rolling_nums_row by assumption.
  apply agg_mean_nums. now apply win_ne.
Qed.

Lemma sma_flat c df i :
  Forall (fun k => k_close k = c) df ->
  (BB_WINDOW <= i + 1)%nat -> (i < length df)%nat ->
  at_row (Col.sma df) i = Num c.
Proof.
  intros H Hw Hi. unfold Col.sma, Col.close.
  rewrite <- (map_map k_close num), rolling_nums_row
    by (rewrite ?length_map; assumption).
  assert (Hne : win BB_WINDOW i (map k_close df) <> [])
    by (apply win_ne; rewrite ?length_map; try assumption; unfold BB_WINDOW; lia).
  rewrite agg_mean_nums by exact Hne. f_equal. apply mean_flat; [|exact Hne].
  apply Forall_win. now apply closes_flat.
Qed.

Lemma std_col_flat c df i :
  Forall (fun k => k_close k = c) df ->
  (BB_WINDOW <= i + 1)%nat -> (i < length df)%nat ->
  at_row (Col.std df) i = Num 0.
Proof.
  intros H Hw Hi. unfold Col.std, Col.close.
  rewrite <- (map_map k_close num), rolling_nums_row
    by (rewrite ?length_map; assumption).
  apply (std_flat c).
  - apply Forall_win. now apply closes_flat.
  - rewrite length_win by (rewrite ?length_map; assumption). unfold BB_WINDOW. lia.
Qed.

(** ** Rows of derived columns *)

Lemma at_row_map f col i :
  (i < length col)%nat -> at_row (map f col) i = f (at_row col i).
Proof.
  intros H. apply at_row_nth_error.
  now rewrite nth_error_map, (nth_error_at_row col i H).
Qed.

Lemma at_row_map2 f xs ys i :
  (i < length xs)%nat -> (i < length ys)%nat ->
  at_row (map2 f xs ys) i = f (at_row xs i) (at_row ys i).
Proof.
  intros Hx Hy. apply at_row_nth_error.
  now rewrite nth_error_map2, (nth_error_at_row xs i Hx), (nth_error_at_row ys i Hy).
Qed.

Lemma at_row_overflow col i : (length col <= i)%nat -> at_row col i = NaN.
Proof. intros H. unfold at_row. now apply nth_overflow. Qed.

Create Rewrite HintDb col_length.
#[local] Hint Rewrite @length_map @length_map2 length_shift length_rolling
  length_ewm_mean length_bfill Nat.min_id : col_length.

Ltac col_length :=
  unfold Col.vol_ma, Col.bb_upper, Col.bb_lower, Col.std, Col.sma, Col.ADX,
    Col.DX, Col.plus_di, Col.minus_di, Col.TR_s, Col.plus_dm_s, Col.minus_dm_s,
    Col.plus_dm, Col.minus_dm, Col.up_move, Col.down_move, Col.TR, Col.tr0,
    Col.tr1, Col.tr2, Col.MACD_signal, Col.MACD, Col.ema_fast, Col.ema_slow,
    Col.EMA_fast, Col.EMA_slow, Col.high, Col.low, Col.close, Col.volume;
  autorewrite with col_length; try reflexivity; try lia.

Lemma length_sma df : length (Col.sma df) = length df.
Proof. col_length. Qed.

Lemma length_std df : length (Col.std df) = length df.
Proof. col_length. Qed.

Lemma length_DX df : length (Col.DX df) = length df.
Proof. col_length. Qed.

Lemma length_vol_ma df : length (Col.vol_ma df) = length df.
Proof. col_length. Qed.

Lemma bb_upper_row df i :
  (i < length df)%nat ->
  at_row (Col.bb_upper df) i =
  fadd (at_row (Col.sma df) i) (fmul (num 2) (at_row (Col.std df) i)).
Proof.
  intros H. unfold Col.bb_upper.
  rewrite at_row_map2, at_row_map;
    rewrite ?length_map, ?length_sma, ?length_std; auto.
Qed.

Lemma bb_lower_row df i :
  (i < length df)%nat ->
  at_row (Col.bb_lower df) i =
  fsub (at_row (Col.sma df) i) (fmul (num 2) (at_row (Col.std df) i)).
Proof.
  intros H. unfold Col.bb_lower.
  rewrite at_row_map2, at_row_map;
    rewrite ?length_map, ?length_sma, ?length_std; auto.
Qed.

Lemma close_row df i :
  (i < length df)%nat ->
  at_row (Col.close df) i = Num (nth i (map k_close df) 0).
Proof.
  intros H. unfold Col.close. rewrite <- (map_map k_close num).
  apply at_row_nums. now rewrite length_map.
Qed.

Lemma iloc_last_rows df :
  df <> [] ->
  iloc_last (compute_indicators df) = inl (row df (length df - 1)).
Proof.
  intros Hne. unfold iloc_last, compute_indicators.
  rewrite length_map, length_seq, nth_error_map, nth_error_seq.
  destruct (Nat.ltb_spec (length df - 1) (length df)) as [_|H].
  - reflexivity.
  - destruct df; [congruence | cbn in H; lia].
Qed.

Lemma all_last_false b1 b2 b3 b4 b5 : all [b1; b2; b3; b4; b5; false] = false.
Proof. destruct b1, b2, b3, b4, b5; reflexivity. Qed.

(** C4.  On a series of at least [max_window + 1] rows whose close is the
    constant [c > 0], the last row has EMA_fast = EMA_slow = c, MACD = 0,
    RSI = 50 and bb_upper = bb_lower = c; neither Bollinger breakout
    condition holds and the signal is NEUTRAL. *)
Theorem flat_price_invariant (c : R) (df : list Candle) :
  0 < c ->
  (max_window + 1 <= length df)%nat ->
  Forall (fun k => k_close k = c) df ->
  exists latest,
    iloc_last (compute_indicators df) = inl latest /\
    EMA_fast latest = Num c /\ EMA_slow latest = Num c /\
    MACD latest = Num 0 /\
    RSI latest = Num 50 /\
    bb_upper latest = Num c /\ bb_lower latest = Num c /\
    bb_buy latest = false /\ bb_sell latest = false /\
    evaluate_conditions latest = NEUTRAL.
Proof.
  intros _ Hlen Hflat. unfold max_window, ADX_WINDOW, BB_WINDOW, VOL_WINDOW in Hlen.
  cbn in Hlen.
  set (i := (length df - 1)%nat).
  assert (Hi : (i < length df)%nat) by (unfold i; lia).
  assert (Hw : (BB_WINDOW <= i + 1)%nat) by (unfold BB_WINDOW, i; lia).
  exists (row df i).
  assert (Hup : at_row (Col.bb_upper df) i = Num c).
  { rewrite bb_upper_row, (sma_flat c), (std_col_flat c) by assumption.
    cbn. f_equal. lra. }
  assert (Hlo : at_row (Col.bb_lower df) i = Num c).
  { rewrite bb_lower_row, (sma_flat c), (std_col_flat c) by assumption.
    cbn. f_equal. lra. }
  assert (Hcl : at_row (Col.close df) i = Num c).
  { unfold Col.close. rewrite <- (map_map k_close num).
    apply at_row_flat; [now apply closes_flat | now rewrite length_map]. }
  assert (Hbuy : bb_buy (row df i) = false).
  { unfold bb_buy, fgt, flt. cbn [row close bb_upper].
    rewrite Hup, Hcl. apply Rltb_irrefl. }
  assert (Hsell : bb_sell (row df i) = false).
  { unfold bb_sell, flt. cbn [row close bb_lower].
    rewrite Hlo, Hcl. apply Rltb_irrefl. }
  split.
  { apply iloc_last_rows. destruct df; [cbn in Hlen; lia | discriminate]. }
  cbn [row EMA_fast EMA_slow MACD RSI bb_upper bb_lower].
  split; [now apply ewm_close_flat|]. split; [now apply ewm_close_flat|].
  split; [now apply (MACD_flat c)|]. split; [now apply (RSI_flat c)|].
  split; [exact Hup|]. split; [exact Hlo|].
  split; [exact Hbuy|]. split; [exact Hsell|].
  unfold evaluate_conditions. rewrite Hbuy, Hsell, !all_last_false. reflexivity.
Qed.

Lemma flat21_flat : Forall (fun k => k_close k = 1) flat21.
Proof. apply Forall_forall. intros k Hk. apply repeat_spec in Hk. now subst. Qed.

Lemma flat_price_invariant_witness :
  0 < 1 /\
  (max_window + 1 <= length flat21)%nat /\
  Forall (fun k => k_close k = 1) flat21 /\
  exists latest,
    iloc_last (compute_indicators flat21) = inl latest /\
    EMA_fast latest = Num 1 /\ EMA_slow latest = Num 1 /\
    MACD latest = Num 0 /\
    RSI latest = Num 50 /\
    bb_upper latest = Num 1 /\ bb_lower latest = Num 1 /\
    bb_buy latest = false /\ bb_sell latest = false /\
    evaluate_conditions latest = NEUTRAL.
Proof.
  assert (H1 : 0 < 1) by lra.
  assert (H2 : (max_window + 1 <= length flat21)%nat) by (cbn; lia).
  split; [exact H1|]. split; [exact H2|]. split; [exact flat21_flat|].
  exact (flat_price_invariant 1 flat21 H1 H2 flat21_flat).
Defined.

(** ** Backward fill *)

Lemma bfill_keeps xs i v :
  nth_error xs i = Some (Num v) -> nth_error (bfill xs) i = Some (Num v).
Proof.
  revert i. induction xs as [|x xs IH]; intros i H; [destruct i; discriminate|].
  destruct i as [|i].
  - cbn in H. inversion H; subst. reflexivity.
  - cbn in H. cbn [bfill]. destruct x; cbn; auto.
Qed.

Lemma at_row_Some_nth_error col i v :
  at_row col i = Num v -> nth_error col i = Some (Num v).
Proof.
  intros H. destruct (Nat.lt_ge_cases i (length col)) as [Hi|Hi].
  - now rewrite (nth_error_at_row col i Hi), H.
  - rewrite at_row_overflow in H by exact Hi. discriminate.
Qed.

Lemma bfill_keeps_row xs i v :
  at_row xs i = Num v -> at_row (bfill xs) i = Num v.
Proof.
  intros H. apply at_row_nth_error, bfill_keeps, at_row_Some_nth_error, H.
Qed.

Lemma is_num_num x : is_num (Num x).
Proof. now exists x. Qed.

(** ** No lookahead *)

Lemma firstn_map2 {A B C} (f : A -> B -> C) n xs ys :
  firstn n (map2 f xs ys) = map2 f (firstn n xs) (firstn n ys).
Proof.
  revert xs ys. induction n as [|n IH]; intros [|x xs] [|y ys]; cbn; auto.
  now rewrite IH.
Qed.

Lemma firstn_shift_from n p xs :
  firstn n (shift_from p xs) = shift_from p (firstn n xs).
Proof.
  revert p xs. induction n as [|n IH]; intros p [|x xs]; cbn; auto.
  now rewrite IH.
Qed.

Lemma firstn_shift n xs : firstn n (shift xs) = shift (firstn n xs).
Proof. apply firstn_shift_from. Qed.

Lemma firstn_ewm_from a n st xs :
  firstn n (ewm_from a st xs) = ewm_from a st (firstn n xs).
Proof.
  revert st xs. induction n as [|n IH]; intros st [|x xs]; cbn; auto.
  now rewrite IH.
Qed.

Lemma firstn_ewm_mean a n xs :
  firstn n (ewm_mean a xs) = ewm_mean a (firstn n xs).
Proof.
  destruct n as [|n]; destruct xs as [|x xs]; cbn; auto.
  now rewrite firstn_ewm_from.
Qed.

Lemma firstn_seq n s len : firstn n (seq s len) = seq s (Nat.min n len).
Proof.
  revert s len. induction n as [|n IH]; intros s [|len]; cbn; auto.
  now rewrite IH.
Qed.

Lemma window_firstn w i n xs :
  (i < n)%nat -> window w i (firstn n xs) = window w i xs.
Proof.
  intros H. unfold window. rewrite firstn_firstn.
  replace (Nat.min (i + 1) n) with (i + 1)%nat by lia. reflexivity.
Qed.

Lemma firstn_rolling w agg n xs :
  firstn n (rolling w agg xs) = rolling w agg (firstn n xs).
Proof.
  unfold rolling. rewrite firstn_map, firstn_seq, length_firstn.
  apply map_ext_in. intros i Hi. apply in_seq in Hi.
  rewrite window_firstn by lia. reflexivity.
Qed.

Lemma firstn_diff n xs : firstn n (diff xs) = diff (firstn n xs).
Proof. unfold diff. now rewrite firstn_map2, firstn_shift. Qed.

Create Rewrite HintDb prefix.
#[local] Hint Rewrite @firstn_map @firstn_map2 firstn_shift firstn_diff
  firstn_ewm_mean firstn_rolling : prefix.

Ltac causal_col :=
  intros n df;
  unfold Col.bb_upper, Col.bb_lower, Col.std, Col.sma, Col.ADX,
    Col.DX, Col.plus_di, Col.minus_di, Col.TR_s, Col.plus_dm_s, Col.minus_dm_s,
    Col.plus_dm, Col.minus_dm, Col.up_move, Col.down_move, Col.TR, Col.tr0,
    Col.tr1, Col.tr2, Col.RSI, Col.RSI_raw, Col.rs, Col.ma_up, Col.ma_down,
    Col.up, Col.down, Col.delta, clip_lower, clip_upper,
    Col.MACD_signal, Col.MACD, Col.ema_fast, Col.ema_slow,
    Col.EMA_fast, Col.EMA_slow, Col.high, Col.low, Col.close, Col.volume;
  autorewrite with prefix; reflexivity.

Lemma causal_close : causal Col.close.
Proof. causal_col. Qed.

Lemma causal_volume : causal Col.volume.
Proof. causal_col. Qed.

Lemma causal_EMA_fast : causal Col.EMA_fast.
Proof. causal_col. Qed.

Lemma causal_EMA_slow : causal Col.EMA_slow.
Proof. causal_col. Qed.

Lemma causal_MACD : causal Col.MACD.
Proof. causal_col. Qed.

Lemma causal_MACD_signal : causal Col.MACD_signal.
Proof. causal_col. Qed.

Lemma causal_RSI : causal Col.RSI.
Proof. causal_col. Qed.

Lemma causal_ADX : causal Col.ADX.
Proof. causal_col. Qed.

Lemma causal_bb_upper : causal Col.bb_upper.
Proof. causal_col. Qed.

Lemma causal_bb_lower : causal Col.bb_lower.
Proof. causal_col. Qed.

(** The volume mean before back-filling is causal; [vol_ma] is not. *)
Lemma causal_vol_mean :
  causal (fun df => rolling VOL_WINDOW agg_mean (Col.volume df)).
Proof. causal_col. Qed.

Lemma causal_rows X s1 s2 t i :
  causal X ->
  firstn (S t) s1 = firstn (S t) s2 -> (i <= t)%nat ->
  at_row (X s1) i = at_row (X s2) i.
Proof.
  intros HX Heq Hi. unfold at_row.
  assert (H : forall s, nth i (X s) NaN = nth i (X (firstn (S t) s)) NaN).
  { intros s. rewrite <- HX, nth_firstn.
    destruct (Nat.ltb_spec i (S t)); [reflexivity|lia]. }
  now rewrite (H s1), (H s2), Heq.
Qed.

Lemma bfill_leading xs :
  forall i m v,
    (i <= m)%nat ->
    (forall j, (i <= j < m)%nat -> nth_error xs j = Some NaN) ->
    nth_error xs m = Some (Num v) ->
    nth_error (bfill xs) i = Some (Num v).
Proof.
  induction xs as [|x xs IH]; intros i m v Him Hnan Hm;
    [destruct m; discriminate|].
  destruct i as [|i].
  - destruct m as [|m].
    + cbn in Hm. inversion Hm; subst. reflexivity.
    + assert (Hx : x = NaN).
      { specialize (Hnan 0%nat). cbn in Hnan.
        assert (E : Some x = Some NaN) by (apply Hnan; lia). now inversion E. }
      subst x. cbn [bfill].
      assert (H0 : nth_error (bfill xs) 0 = Some (Num v)).
      { apply (IH 0%nat m v); [lia | | exact Hm].
        intros j Hj. apply (Hnan (S j)). lia. }
      destruct (bfill xs) as [|y ys]; [discriminate|].
      cbn in H0 |- *. exact H0.
  - destruct m as [|m]; [lia|].
    assert (Hi : nth_error (bfill xs) i = Some (Num v)).
    { apply (IH i m v); [lia | | exact Hm].
      intros j Hj. apply (Hnan (S j)). lia. }
    cbn [bfill]. destruct x; exact Hi.
Qed.

(** Once the series has row [VOL_WINDOW - 1], every earlier row of
    [vol_ma] holds the mean of that row. *)
Lemma vol_ma_row df i :
  (VOL_WINDOW - 1 < length df)%nat -> (i < length df)%nat ->
  at_row (Col.vol_ma df) i =
  at_row (rolling VOL_WINDOW agg_mean (Col.volume df))
         (Nat.max i (VOL_WINDOW - 1)).
Proof.
  intros Hlen Hi. unfold VOL_WINDOW in Hlen |- *. cbn [Nat.sub] in Hlen |- *.
  set (r := rolling 20 agg_mean (Col.volume df)).
  assert (Lr : length r = length df) by (unfold r; col_length).
  assert (Hdef : forall j, (19 <= j)%nat -> (j < length df)%nat ->
                   exists v, at_row r j = Num v).
  { intros j Hj Hjl. unfold r, Col.volume.
    rewrite <- (map_map k_volume num), rolling_mean_nums_row
      by (rewrite ?length_map; lia).
    eexists. reflexivity. }
  unfold Col.vol_ma. fold r.
  destruct (Nat.le_gt_cases 19 i) as [Hge|Hlt].
  - replace (Nat.max i 19) with i by lia.
    destruct (Hdef i Hge Hi) as (v & Hv). rewrite Hv.
    now apply bfill_keeps_row.
  - replace (Nat.max i 19) with 19%nat by lia.
    destruct (Hdef 19%nat (le_n _) Hlen) as (v & Hv). rewrite Hv.
    apply at_row_nth_error. apply (bfill_leading r i 19 v); [lia | |].
    + intros j Hj. rewrite nth_error_at_row by lia. f_equal.
      unfold r. apply rolling_short_row; [lia|]. col_length.
    + now apply at_row_Some_nth_error.
Qed.

(** C3, as the engine has it.  When two series agree on rows [0..t], every
    derived value but [vol_ma] is the same on every row up to [t]; [vol_ma]
    is the same on those rows once [t] has reached row [VOL_WINDOW - 1]
    (the rows before it are back-filled from that row). *)
Theorem no_lookahead (s1 s2 : list Candle) (t i : nat) :
  firstn (S t) s1 = firstn (S t) s2 ->
  (t < length s1)%nat -> (t < length s2)%nat -> (i <= t)%nat ->
  close (row s1 i) = close (row s2 i) /\
  volume (row s1 i) = volume (row s2 i) /\
  EMA_fast (row s1 i) = EMA_fast (row s2 i) /\
  EMA_slow (row s1 i) = EMA_slow (row s2 i) /\
  MACD (row s1 i) = MACD (row s2 i) /\
  MACD_signal (row s1 i) = MACD_signal (row s2 i) /\
  RSI (row s1 i) = RSI (row s2 i) /\
  ADX (row s1 i) = ADX (row s2 i) /\
  bb_upper (row s1 i) = bb_upper (row s2 i) /\
  bb_lower (row s1 i) = bb_lower (row s2 i) /\
  ((VOL_WINDOW - 1 <= t)%nat -> row s1 i = row s2 i).
Proof.
  intros Heq H1 H2 Hi.
  cbn [row close volume EMA_fast EMA_slow MACD MACD_signal RSI ADX
       bb_upper bb_lower].
  pose proof (fun X HX => causal_rows X s1 s2 t i HX Heq Hi) as Hc.
  pose proof (Hc _ causal_close) as Ec.
  pose proof (Hc _ causal_volume) as Ev.
  pose proof (Hc _ causal_EMA_fast) as Ef.
  pose proof (Hc _ causal_EMA_slow) as Es.
  pose proof (Hc _ causal_MACD) as Em.
  pose proof (Hc _ causal_MACD_signal) as Eg.
  pose proof (Hc _ causal_RSI) as Er.
  pose proof (Hc _ causal_ADX) as Ea.
  pose proof (Hc _ causal_bb_upper) as Eu.
  pose proof (Hc _ causal_bb_lower) as El.
  repeat (split; [assumption|]).
  intros Ht. unfold row.
  rewrite Ec, Ev, Ef, Es, Em, Eg, Er, Ea, Eu, El.
  rewrite (vol_ma_row s1 i), (vol_ma_row s2 i) by lia.
  f_equal.
  apply (causal_rows _ s1 s2 t _ causal_vol_mean Heq). lia.
Qed.

Lemma no_lookahead_witness :
  firstn 1 quiet20 = firstn 1 loud20 /\
  (0 < length quiet20)%nat /\ (0 < length loud20)%nat /\ (0 <= 0)%nat /\
  RSI (row quiet20 0) = RSI (row loud20 0) /\
  ADX (row quiet20 0) = ADX (row loud20 0) /\
  bb_upper (row quiet20 0) = bb_upper (row loud20 0).
Proof.
  assert (H0 : firstn 1 quiet20 = firstn 1 loud20) by reflexivity.
  assert (H1 : (0 < length quiet20)%nat) by (cbn; lia).
  assert (H2 : (0 < length loud20)%nat) by (cbn; lia).
  destruct (no_lookahead quiet20 loud20 0 0 H0 H1 H2 (le_n 0))
    as (_ & _ & _ & _ & _ & _ & Hr & Ha & Hu & _).
  split; [exact H0|]. split; [exact H1|]. split; [exact H2|].
  split; [apply le_n|]. split; [exact Hr|]. split; [exact Ha | exact Hu].
Defined.

Lemma vol_ma_row0_20 df :
  length df = 20%nat ->
  vol_ma (row df 0) = Num (Rsum (map k_volume df) / 20).
Proof.
  intros L. cbn [row vol_ma]. rewrite vol_ma_row by (rewrite L; unfold VOL_WINDOW; lia).
  change (Nat.max 0 (VOL_WINDOW - 1)) with 19%nat. unfold Col.volume.
  rewrite <- (map_map k_volume num).
  rewrite rolling_mean_nums_row by (rewrite ?length_map, ?L; unfold VOL_WINDOW; lia).
  unfold mean_R, win, VOL_WINDOW. cbn [Nat.add Nat.sub skipn].
  rewrite firstn_all2 by (rewrite length_map, L; lia).
  rewrite length_map, L. do 2 f_equal.
  rewrite INR_IZR_INZ. reflexivity.
Qed.

(** C3 as stated fails: the two series agree on row 0, yet [vol_ma] on
    row 0 is the mean of all twenty volumes and differs. *)
Lemma vol_ma_looks_ahead :
  firstn 1 quiet20 = firstn 1 loud20 /\
  (0 < length quiet20)%nat /\ (0 < length loud20)%nat /\
  vol_ma (row quiet20 0) = Num 1 /\
  vol_ma (row loud20 0) = Num (39 / 20) /\
  row quiet20 0 <> row loud20 0.
Proof.
  assert (Hq : vol_ma (row quiet20 0) = Num 1).
  { rewrite vol_ma_row0_20 by reflexivity. f_equal.
    unfold quiet20, flat_candle. cbn [repeat map k_volume Rsum fold_right]. lra. }
  assert (Hl : vol_ma (row loud20 0) = Num (39 / 20)).
  { rewrite vol_ma_row0_20 by reflexivity. f_equal.
    unfold loud20, loud_candle, flat_candle.
    cbn [repeat map k_volume Rsum fold_right]. lra. }
  split; [reflexivity|]. split; [cbn; lia|]. split; [cbn; lia|].
  split; [exact Hq|]. split; [exact Hl|].
  intros E. apply (f_equal vol_ma) in E. rewrite Hq, Hl in E.
  inversion E. lra.
Qed.

(** ** ADX *)

(** Evaluation of a column on concrete candles: unfold the list structure,
    then decide each comparison of constants. *)
Ltac col_eval :=
  cbv [Col.TR Col.tr0 Col.tr1 Col.tr2 Col.plus_dm Col.minus_dm Col.up_move
       Col.down_move Col.high Col.low Col.close
       map map2 shift shift_from fsub fadd fmul fabs fmax fmin
       max_skipna maximum np_where fgt flt num is_nan has_nan existsb orb
       k_high k_low k_close k_volume
       jump27 low_candle high_candle repeat app
       rolling window agg_sum agg_mean Rsum fold_right
       seq length firstn skipn Nat.leb Nat.add Nat.sub
       replace_zero_nan fdiv fillna].

Ltac no_decision t :=
  lazymatch t with
  | context [Rlt_dec] => fail
  | context [Rle_dec] => fail
  | context [Rcase_abs] => fail
  | context [Req_dec_T] => fail
  | _ => idtac
  end.

Ltac decide_consts :=
  unfold Rltb, Rleb, Rmax, Rmin, Rabs;
  repeat match goal with
    | |- context [Rlt_dec ?a ?b] =>
        no_decision a; no_decision b; destruct (Rlt_dec a b); try (exfalso; lra)
    | |- context [Rle_dec ?a ?b] =>
        no_decision a; no_decision b; destruct (Rle_dec a b); try (exfalso; lra)
    | |- context [Rcase_abs ?a] =>
        no_decision a; destruct (Rcase_abs a); try (exfalso; lra)
    | |- context [Req_dec_T ?a ?b] =>
        no_decision a; no_decision b; destruct (Req_dec_T a b); try (exfalso; lra)
    end;
  cbv beta iota;
  try reflexivity; try (f_equal; lra).

Ltac list_eq := repeat (apply f_equal2; [decide_consts|]); reflexivity.

Lemma jump27_TR : Col.TR jump27 = repeat (Num 2) 27.
Proof. col_eval. list_eq. Qed.

Lemma jump27_plus_dm :
  Col.plus_dm jump27 = repeat (Num 0) 12 ++ [Num 1] ++ repeat (Num 0) 14.
Proof. col_eval. list_eq. Qed.

Lemma jump27_minus_dm : Col.minus_dm jump27 = repeat (Num 0) 27.
Proof. col_eval. list_eq. Qed.

Lemma jump27_TR_s :
  Col.TR_s jump27 = repeat NaN 13 ++ repeat (Num 28) 14.
Proof. unfold Col.TR_s, ADX_WINDOW. rewrite jump27_TR. col_eval. list_eq. Qed.

Lemma jump27_plus_dm_s :
  Col.plus_dm_s jump27 = repeat NaN 13 ++ repeat (Num 1) 13 ++ [Num 0].
Proof.
  unfold Col.plus_dm_s, ADX_WINDOW. rewrite jump27_plus_dm. col_eval. list_eq.
Qed.

Lemma jump27_minus_dm_s :
  Col.minus_dm_s jump27 = repeat NaN 13 ++ repeat (Num 0) 14.
Proof.
  unfold Col.minus_dm_s, ADX_WINDOW. rewrite jump27_minus_dm. col_eval. list_eq.
Qed.

Lemma jump27_plus_di :
  Col.plus_di jump27 = repeat NaN 13 ++ repeat (Num (25 / 7)) 13 ++ [Num 0].
Proof.
  unfold Col.plus_di. rewrite jump27_plus_dm_s, jump27_TR_s. col_eval. list_eq.
Qed.

Lemma jump27_minus_di :
  Col.minus_di jump27 = repeat NaN 13 ++ repeat (Num 0) 14.
Proof.
  unfold Col.minus_di. rewrite jump27_minus_dm_s, jump27_TR_s. col_eval. list_eq.
Qed.

Lemma jump27_DX :
  Col.DX jump27 = repeat NaN 13 ++ repeat (Num 100) 13 ++ [NaN].
Proof.
  unfold Col.DX. rewrite jump27_plus_di, jump27_minus_di. col_eval. list_eq.
Qed.

Lemma length_plus_di df : length (Col.plus_di df) = length df.
Proof. col_length. Qed.

Lemma length_minus_di df : length (Col.minus_di df) = length df.
Proof. col_length. Qed.

Lemma DX_row df t :
  (t < length df)%nat ->
  at_row (Col.DX df) t =
  fdiv (fmul (num 100)
          (fabs (fsub (at_row (Col.plus_di df) t) (at_row (Col.minus_di df) t))))
       (replace_zero_nan
          (fadd (at_row (Col.plus_di df) t) (at_row (Col.minus_di df) t))).
Proof.
  intros Ht. unfold Col.DX.
  rewrite at_row_map2, !at_row_map, !at_row_map2;
    rewrite ?length_map, ?length_map2, ?length_plus_di, ?length_minus_di; try lia.
  reflexivity.
Qed.

Lemma ADX_row df t :
  (t < length df)%nat ->
  at_row (Col.ADX df) t =
  fillna 0
    match window ADX_WINDOW t (Col.DX df) with
    | Some wn => if has_nan wn then NaN else agg_mean wn
    | None => NaN
    end.
Proof.
  intros Ht. unfold Col.ADX.
  rewrite at_row_map by (rewrite length_rolling, length_DX; exact Ht).
  rewrite rolling_row by (rewrite length_DX; exact Ht). reflexivity.
Qed.

Lemma has_nan_nth l k : nth_error l k = Some NaN -> has_nan l = true.
Proof.
  intros H. unfold has_nan. apply existsb_exists. exists NaN.
  split; [eapply nth_error_In; exact H | reflexivity].
Qed.

Lemma length_window w i xs wn :
  (i < length xs)%nat -> window w i xs = Some wn -> length wn = w.
Proof.
  intros Hi. unfold window.
  destruct (Nat.leb_spec w (i + 1)) as [Hw|Hw]; [|discriminate].
  intros H. inversion H. rewrite length_skipn, length_firstn. lia.
Qed.

(** C8, as the engine has it.  Where [(+DI) + (-DI) = 0] the DX of the row
    is NaN.  ADX is the mean of DX over the trailing window when the
    window is full and every DX in it is a number; it is 0 while the
    window is not full, and 0 on every row whose window holds a NaN DX. *)
Theorem adx_degeneracy (df : list Candle) (t : nat) :
  (t < length df)%nat ->
  (forall p m,
     at_row (Col.plus_di df) t = Num p ->
     at_row (Col.minus_di df) t = Num m ->
     p + m = 0 -> at_row (Col.DX df) t = NaN) /\
  (forall vs,
     window ADX_WINDOW t (Col.DX df) = Some (map num vs) ->
     at_row (Col.ADX df) t = Num (mean_R vs)) /\
  ((t + 1 < ADX_WINDOW)%nat -> at_row (Col.ADX df) t = Num 0) /\
  (forall j,
     (j <= t < j + ADX_WINDOW)%nat ->
     at_row (Col.DX df) j = NaN -> at_row (Col.ADX df) t = Num 0).
Proof.
  intros Ht. split; [|split; [|split]].
  - intros p m Hp Hm Hz. rewrite DX_row by exact Ht. rewrite Hp, Hm.
    cbn [fadd replace_zero_nan].
    destruct (Req_dec_T (p + m) 0) as [_|N]; [reflexivity | contradiction].
  - intros vs Hw. rewrite ADX_row by exact Ht.
    rewrite Hw, has_nan_nums. rewrite agg_mean_nums; [reflexivity|].
    apply length_window in Hw; [|rewrite length_DX; exact Ht].
    rewrite length_map in Hw. intros ->. discriminate Hw.
  - intros Hs. rewrite ADX_row by exact Ht.
    now rewrite window_short.
  - intros j Hj Hnan. rewrite ADX_row by exact Ht.
    unfold window. destruct (Nat.leb_spec ADX_WINDOW (t + 1)) as [Hw|Hw];
      [|reflexivity].
    rewrite (has_nan_nth _ (j - (t + 1 - ADX_WINDOW))); [reflexivity|].
    rewrite nth_error_skipn, nth_error_firstn.
    replace (t + 1 - ADX_WINDOW + (j - (t + 1 - ADX_WINDOW)))%nat with j by lia.
    destruct (Nat.ltb_spec j (t + 1)) as [_|H]; [|lia].
    rewrite nth_error_at_row by (rewrite length_DX; lia). now rewrite Hnan.
Qed.

Lemma jump27_DX_26 : at_row (Col.DX jump27) 26 = NaN.
Proof. rewrite jump27_DX. reflexivity. Qed.

Lemma adx_degeneracy_witness :
  (26 < length jump27)%nat /\
  at_row (Col.DX jump27) 26 = NaN /\
  at_row (Col.ADX jump27) 26 = Num 0.
Proof.
  assert (H : (26 < length jump27)%nat) by (cbn; lia).
  split; [exact H|]. split; [exact jump27_DX_26|].
  apply (proj2 (proj2 (proj2 (adx_degeneracy jump27 26 H))) 26%nat).
  - unfold ADX_WINDOW. lia.
  - exact jump27_DX_26.
Defined.

(** C8 as stated fails.  On row 26 of [jump27] both DI are 0, so the DI
    denominator is zero, and the thirteen other rows of the trailing
    window have DX = 100.  The mean with row 26 counted as 0 is
    [1300 / 14]; the engine's ADX on that row is 0. *)
Lemma adx_not_mean_with_zero :
  at_row (Col.plus_di jump27) 26 = Num 0 /\
  at_row (Col.minus_di jump27) 26 = Num 0 /\
  (forall j, (13 <= j < 26)%nat -> at_row (Col.DX jump27) j = Num 100) /\
  at_row (ADX_spec jump27) 26 = Num (1300 / 14) /\
  at_row (Col.ADX jump27) 26 = Num 0 /\
  at_row (Col.ADX jump27) 26 <> at_row (ADX_spec jump27) 26.
Proof.
  assert (Hspec : at_row (ADX_spec jump27) 26 = Num (1300 / 14)).
  { unfold ADX_spec, ADX_WINDOW. rewrite jump27_DX. unfold at_row.
    col_eval. cbv [nth agg_mean agg_sum fold_right length INR fdiv fadd].
    decide_consts. }
  assert (Hadx : at_row (Col.ADX jump27) 26 = Num 0).
  { unfold Col.ADX, ADX_WINDOW. rewrite jump27_DX. reflexivity. }
  split; [rewrite jump27_plus_di; reflexivity|].
  split; [rewrite jump27_minus_di; reflexivity|].
  split.
  { intros j Hj. rewrite jump27_DX.
    do 13 (destruct j as [|j]; [lia|]).
    do 13 (destruct j as [|j]; [reflexivity|]). lia. }
  split; [exact Hspec|]. split; [exact Hadx|].
  rewrite Hspec, Hadx. intros E. inversion E. lra.
Qed.

(** * Further properties of the code *)

(** ** ADX warm-up *)

Lemma length_plus_dm df : length (Col.plus_dm df) = length df.
Proof. col_length. Qed.

Lemma length_minus_dm df : length (Col.minus_dm df) = length df.
Proof. col_length. Qed.

Lemma length_plus_dm_s df : length (Col.plus_dm_s df) = length df.
Proof. col_length. Qed.

Lemma length_minus_dm_s df : length (Col.minus_dm_s df) = length df.
Proof. col_length. Qed.

Lemma length_TR df : length (Col.TR df) = length df.
Proof. col_length. Qed.

Lemma length_TR_s df : length (Col.TR_s df) = length df.
Proof. col_length. Qed.

Lemma plus_di_row df i :
  (i < length df)%nat ->
  at_row (Col.plus_di df) i =
  fmul (num 100)
       (fdiv (at_row (Col.plus_dm_s df) i)
             (replace_zero_nan (at_row (Col.TR_s df) i))).
Proof.
  intros Hi. unfold Col.plus_di.
  rewrite at_row_map, at_row_map2, at_row_map;
    rewrite ?length_map2, ?length_map, ?length_plus_dm_s, ?length_TR_s; try lia.
  reflexivity.
Qed.

Lemma minus_di_row df i :
  (i < length df)%nat ->
  at_row (Col.minus_di df) i =
  fmul (num 100)
       (fdiv (at_row (Col.minus_dm_s df) i)
             (replace_zero_nan (at_row (Col.TR_s df) i))).
Proof.
  intros Hi. unfold Col.minus_di.
  rewrite at_row_map, at_row_map2, at_row_map;
    rewrite ?length_map2, ?length_map, ?length_minus_dm_s, ?length_TR_s; try lia.
  reflexivity.
Qed.

(** DX has no value before the rolling sums have a full window. *)
Lemma DX_short df i :
  (i < length df)%nat -> (i + 1 < ADX_WINDOW)%nat ->
  at_row (Col.DX df) i = NaN.
Proof.
  intros Hi Hs. rewrite DX_row, plus_di_row by exact Hi.
  unfold Col.plus_dm_s.
  rewrite rolling_short_row by (rewrite ?length_plus_dm; assumption).
  reflexivity.
Qed.

(** A NaN DX voids ADX on every row whose window holds it. *)
Lemma ADX_nan_window df i j :
  (i < length df)%nat -> (j <= i < j + ADX_WINDOW)%nat ->
  at_row (Col.DX df) j = NaN -> at_row (Col.ADX df) i = Num 0.
Proof.
  intros Hi Hj Hnan. rewrite ADX_row by exact Hi.
  unfold window. destruct (Nat.leb_spec ADX_WINDOW (i + 1)) as [Hw|Hw];
    [|reflexivity].
  rewrite (has_nan_nth _ (j - (i + 1 - ADX_WINDOW))); [reflexivity|].
  rewrite nth_error_skipn, nth_error_firstn.
  replace (i + 1 - ADX_WINDOW + (j - (i + 1 - ADX_WINDOW)))%nat with j by lia.
  destruct (Nat.ltb_spec j (i + 1)) as [_|H]; [|lia].
  rewrite nth_error_at_row by (rewrite length_DX; lia). now rewrite Hnan.
Qed.

Lemma all_adx_false b1 b2 b3 b5 b6 : all [b1; b2; b3; false; b5; b6] = false.
Proof. destruct b1, b2, b3; reflexivity. Qed.

Lemma Rleb_false x y : y < x -> Rleb x y = false.
Proof. intros H. unfold Rleb. destruct (Rle_dec x y); [lra | reflexivity]. Qed.

Lemma Rleb_true x y : x <= y -> Rleb x y = true.
Proof. intros H. unfold Rleb. destruct (Rle_dec x y); [reflexivity | lra]. Qed.

Lemma adx_below_threshold_neutral l x :
  ADX l = Num x -> x < ADX_THRESHOLD -> evaluate_conditions l = NEUTRAL.
Proof.
  intros HA Hx. unfold evaluate_conditions.
  assert (H : adx_ok l = false).
  { unfold adx_ok, fge, fle, num. rewrite HA. now apply Rleb_false. }
  rewrite H, !all_adx_false. reflexivity.
Qed.

Lemma ADX_warmup_row (df : list Candle) (i : nat) :
  (i < length df)%nat -> (i < adx_warmup)%nat ->
  ADX (row df i) = Num 0 /\ evaluate_conditions (row df i) = NEUTRAL.
Proof.
  intros Hi Hw. change adx_warmup with 26%nat in Hw.
  assert (HA : ADX (row df i) = Num 0).
  { cbn [row ADX].
    destruct (Nat.lt_ge_cases (i + 1) ADX_WINDOW) as [Hs|Hs].
    - apply (ADX_nan_window df i i Hi); [unfold ADX_WINDOW in *; lia|].
      now apply DX_short.
    - unfold ADX_WINDOW in Hs.
      apply (ADX_nan_window df i (i + 1 - 14) Hi); [unfold ADX_WINDOW; lia|].
      apply DX_short; [lia | unfold ADX_WINDOW; lia]. }
  split; [exact HA|].
  apply (adx_below_threshold_neutral _ 0 HA). unfold ADX_THRESHOLD. lra.
Qed.

(** On the first [adx_warmup = 26] rows of any frame ADX is 0, below the
    threshold, so those rows evaluate to NEUTRAL whatever the prices. *)
Theorem adx_warmup_neutral (df : list Candle) (i : nat) :
  (i < length df)%nat -> (i < adx_warmup)%nat ->
  ADX (row df i) = Num 0 /\ evaluate_conditions (row df i) = NEUTRAL.
Proof. exact (ADX_warmup_row df i). Qed.

Lemma adx_warmup_neutral_witness :
  (20 < length flat21)%nat /\ (20 < adx_warmup)%nat /\
  ADX (row flat21 20) = Num 0 /\
  evaluate_conditions (row flat21 20) = NEUTRAL.
Proof.
  assert (H1 : (20 < length flat21)%nat) by (cbn; lia).
  assert (H2 : (20 < adx_warmup)%nat) by (cbn; lia).
  split; [exact H1|]. split; [exact H2|].
  exact (adx_warmup_neutral flat21 20 H1 H2).
Defined.

(** ** The loop of [analyze_symbol] *)

Lemma iloc_last_empty :
  iloc_last (compute_indicators []) = inr IndexError.
Proof. reflexivity. Qed.

Lemma signal_of_ok fetch symbol tf s :
  signal_of fetch symbol tf = inl s <->
  exists df, fetch symbol tf LIMIT = inl df /\ df <> [] /\
             s = evaluate_conditions (row df (length df - 1)).
Proof.
  unfold signal_of, bind. split.
  - destruct (fetch symbol tf LIMIT) as [df|e]; [|discriminate].
    destruct df as [|k df]; [rewrite iloc_last_empty; discriminate|].
    rewrite iloc_last_rows by discriminate. intros H. inversion H.
    exists (k :: df). repeat split. discriminate.
  - intros (df & -> & Hne & ->). now rewrite iloc_last_rows.
Qed.

(** The loop, statement by statement, is [signal_of] on each timeframe. *)
Lemma analyze_loop_step fetch symbol tf rest signals per_tf :
  analyze_loop fetch symbol (tf :: rest) signals per_tf =
  match signal_of fetch symbol tf with
  | inl s => analyze_loop fetch symbol rest (signals ++ [s]) (dict_set per_tf tf s)
  | inr e => inr e
  end.
Proof.
  cbn [analyze_loop]. unfold signal_of, bind.
  destruct (fetch symbol tf LIMIT) as [df|e]; [|reflexivity].
  destruct (iloc_last (compute_indicators df)); reflexivity.
Qed.

Lemma analyze_loop_ok_inv fetch symbol tfs :
  forall signals per_tf r,
    analyze_loop fetch symbol tfs signals per_tf = inl r ->
    forall tf, In tf tfs -> exists s, signal_of fetch symbol tf = inl s.
Proof.
  induction tfs as [|t rest IH]; intros signals per_tf r Hrun tf Hin;
    [destruct Hin|].
  rewrite analyze_loop_step in Hrun.
  destruct (signal_of fetch symbol t) as [s|e] eqn:Es; [|discriminate].
  destruct Hin as [<-|Hin]; [now exists s|].
  eapply IH; eauto.
Qed.

Lemma analyze_loop_ok fetch symbol tfs :
  (forall tf, In tf tfs -> exists s, signal_of fetch symbol tf = inl s) ->
  forall signals per_tf,
    exists r, analyze_loop fetch symbol tfs signals per_tf = inl r.
Proof.
  induction tfs as [|t rest IH]; intros Hall signals per_tf.
  - cbn. eauto.
  - rewrite analyze_loop_step.
    destruct (Hall t (or_introl eq_refl)) as (s & ->).
    apply IH. intros tf Hin. apply Hall. now right.
Qed.

Lemma analyze_loop_first_error fetch symbol pre :
  forall tf post e signals per_tf,
    (forall t, In t pre -> exists s, signal_of fetch symbol t = inl s) ->
    signal_of fetch symbol tf = inr e ->
    analyze_loop fetch symbol (pre ++ tf :: post) signals per_tf = inr e.
Proof.
  induction pre as [|t pre IH]; intros tf post e signals per_tf Hpre Hfail.
  - cbn [app]. rewrite analyze_loop_step, Hfail. reflexivity.
  - cbn [app]. rewrite analyze_loop_step.
    destruct (Hpre t (or_introl eq_refl)) as (s & ->).
    apply IH; [|exact Hfail]. intros t' Hin. apply Hpre. now right.
Qed.

Lemma analyze_symbol_inl_iff_loop fetch symbol :
  (exists r, analyze_symbol fetch symbol = inl r) <->
  (exists r, analyze_loop fetch symbol TIMEFRAMES [] [] = inl r).
Proof.
  unfold analyze_symbol, bind. split.
  - intros (r & H).
    destruct (analyze_loop fetch symbol TIMEFRAMES [] []) as [sp|e];
      [eauto | discriminate].
  - intros ([signals d] & ->).
    destruct (forallb (Signal_eqb BUY) signals);
      [|destruct (forallb (Signal_eqb SELL) signals)]; eauto.
Qed.

(** [analyze_symbol] returns a result exactly when every timeframe's fetch
    succeeds with a frame of at least one row. *)
Theorem analyze_symbol_succeeds_iff (fetch : Fetch) (symbol : string) :
  (exists r, analyze_symbol fetch symbol = inl r) <->
  (forall tf, In tf TIMEFRAMES ->
     exists df, fetch symbol tf LIMIT = inl df /\ df <> []).
Proof.
  rewrite analyze_symbol_inl_iff_loop. split.
  - intros (r & Hr) tf Hin.
    destruct (analyze_loop_ok_inv _ _ _ _ _ _ Hr tf Hin) as (s & Hs).
    apply signal_of_ok in Hs. destruct Hs as (df & Hf & Hne & _). eauto.
  - intros Hall. apply analyze_loop_ok. intros tf Hin.
    destruct (Hall tf Hin) as (df & Hf & Hne).
    exists (evaluate_conditions (row df (length df - 1))).
    apply signal_of_ok. eauto.
Qed.

(** The first timeframe that fails decides the outcome: the error of its
    fetch, or [IndexError] for an empty frame, is what [analyze_symbol]
    raises, whatever the later timeframes would give. *)
Theorem analyze_symbol_first_error (fetch : Fetch) (symbol : string)
    (pre post : list string) (tf : string) :
  TIMEFRAMES = pre ++ tf :: post ->
  (forall t, In t pre ->
     exists df, fetch symbol t LIMIT = inl df /\ df <> []) ->
  (forall e, fetch symbol tf LIMIT = inr e ->
     analyze_symbol fetch symbol = inr e) /\
  (fetch symbol tf LIMIT = inl [] ->
     analyze_symbol fetch symbol = inr IndexError).
Proof.
  intros Htf Hpre.
  assert (Hpre' : forall t, In t pre -> exists s, signal_of fetch symbol t = inl s).
  { intros t Hin. destruct (Hpre t Hin) as (df & Hf & Hne).
    exists (evaluate_conditions (row df (length df - 1))).
    apply signal_of_ok. eauto. }
  assert (Hgen : forall e, signal_of fetch symbol tf = inr e ->
                           analyze_symbol fetch symbol = inr e).
  { intros e He. unfold analyze_symbol. rewrite Htf.
    now rewrite (analyze_loop_first_error fetch symbol pre tf post e [] [] Hpre' He). }
  split.
  - intros e He. apply Hgen. unfold signal_of. now rewrite He.
  - intros He. apply Hgen. unfold signal_of. now rewrite He.
Qed.

Lemma analyze_symbol_first_error_witness :
  analyze_symbol failing_fetch "BTCUSDT" = inr DataUnavailable /\
  analyze_symbol empty_fetch "BTCUSDT" = inr IndexError.
Proof.
  assert (Htf : TIMEFRAMES = ["1m"; "5m"]%string ++ "15m"%string :: ["30m"; "1h"]%string)
    by reflexivity.
  split.
  - refine (proj1 (analyze_symbol_first_error failing_fetch "BTCUSDT"
                     _ _ _ Htf _) DataUnavailable eq_refl).
    intros t [<-|[<-|[]]]; exists [flat_candle]; split;
      (reflexivity || discriminate).
  - refine (proj2 (analyze_symbol_first_error empty_fetch "BTCUSDT"
                     _ _ _ Htf _) eq_refl).
    intros t [<-|[<-|[]]]; exists [flat_candle]; split;
      (reflexivity || discriminate).
Defined.

Lemma analyze_loop_value fetch symbol (g : string -> Signal) tfs :
  forall signals per_tf,
    (forall tf, In tf tfs -> signal_of fetch symbol tf = inl (g tf)) ->
    NoDup (map fst per_tf ++ tfs) ->
    analyze_loop fetch symbol tfs signals per_tf =
    inl (signals ++ map g tfs, per_tf ++ map (fun tf => (tf, g tf)) tfs).
Proof.
  induction tfs as [|t rest IH]; intros signals per_tf Hall Hnd.
  - cbn. now rewrite !app_nil_r.
  - rewrite analyze_loop_step, (Hall t (or_introl eq_refl)).
    assert (Hfresh : ~ In t (map fst per_tf)).
    { apply NoDup_remove_2 in Hnd. intros Hin. apply Hnd.
      apply in_or_app. now left. }
    rewrite dict_set_fresh by exact Hfresh.
    rewrite IH.
    + cbn [map]. now rewrite <- !app_assoc.
    + intros tf Hin. apply Hall. now right.
    + rewrite map_app, <- app_assoc. exact Hnd.
Qed.

(** When every timeframe's frame has at most [adx_warmup = 26] rows (and at
    least one), every timeframe is NEUTRAL and so is the consensus: no
    price history that short can produce BUY or SELL. *)
Theorem short_history_neutral (fetch : Fetch) (symbol : string) :
  (forall tf, In tf TIMEFRAMES ->
     exists df, fetch symbol tf LIMIT = inl df /\ df <> [] /\
                (length df <= adx_warmup)%nat) ->
  analyze_symbol fetch symbol =
  inl (NEUTRAL, map (fun tf => (tf, NEUTRAL)) TIMEFRAMES).
Proof.
  intros Hall. unfold analyze_symbol.
  rewrite (analyze_loop_value fetch symbol (fun _ => NEUTRAL)).
  - reflexivity.
  - intros tf Hin. destruct (Hall tf Hin) as (df & Hf & Hne & Hlen).
    apply signal_of_ok. exists df. split; [exact Hf|]. split; [exact Hne|].
    symmetry. apply ADX_warmup_row.
    + destruct df; [congruence | cbn; lia].
    + destruct df; [congruence | cbn in Hlen |- *; lia].
  - exact TIMEFRAMES_NoDup.
Qed.

Lemma short_history_neutral_witness :
  analyze_symbol short_fetch "ETHUSDT" =
  inl (NEUTRAL, map (fun tf => (tf, NEUTRAL)) TIMEFRAMES).
Proof.
  apply (short_history_neutral short_fetch "ETHUSDT").
  intros tf _. exists flat5. split; [reflexivity|].
  split; [discriminate | cbn; lia].
Defined.

(** ** NaN in the evaluated row *)

Lemma all_false_in bs : In false bs -> all bs = false.
Proof.
  unfold all. induction bs as [|b bs IH]; intros H; [destruct H|].
  cbn [forallb]. destruct H as [->|H]; [reflexivity|].
  rewrite (IH H). apply andb_false_r.
Qed.

Lemma flt_nan_l b : flt NaN b = false.
Proof. reflexivity. Qed.

Lemma flt_nan_r a : flt a NaN = false.
Proof. destruct a as [|x|[|]]; reflexivity. Qed.

Lemma fle_nan_l b : fle NaN b = false.
Proof. reflexivity. Qed.

Lemma fle_nan_r a : fle a NaN = false.
Proof. destruct a as [|x|[|]]; reflexivity. Qed.

Lemma neutral_of_false l :
  In false [ema_buy l; macd_buy l; rsi_buy l; adx_ok l; vol_ok l; bb_buy l] ->
  In false [ema_sell l; macd_sell l; rsi_sell l; adx_ok l; vol_ok l; bb_sell l] ->
  evaluate_conditions l = NEUTRAL.
Proof.
  intros Hb Hs. unfold evaluate_conditions.
  now rewrite (all_false_in _ Hb), (all_false_in _ Hs).
Qed.

(** A NaN in any field that both branches read makes the row NEUTRAL; a
    NaN upper band rules out BUY and a NaN lower band rules out SELL. *)
Theorem nan_field_neutral (l : Snapshot) :
  (EMA_fast l = NaN \/ EMA_slow l = NaN \/ MACD l = NaN \/
   MACD_signal l = NaN \/ RSI l = NaN \/ ADX l = NaN \/
   volume l = NaN \/ vol_ma l = NaN \/ close l = NaN ->
   evaluate_conditions l = NEUTRAL) /\
  (bb_upper l = NaN -> evaluate_conditions l <> BUY) /\
  (bb_lower l = NaN -> evaluate_conditions l <> SELL).
Proof.
  split; [|split].
  - intros H.
    assert (Hcases :
      (ema_buy l = false /\ ema_sell l = false) \/
      (macd_buy l = false /\ macd_sell l = false) \/
      (rsi_buy l = false /\ rsi_sell l = false) \/
      adx_ok l = false \/ vol_ok l = false \/
      (bb_buy l = false /\ bb_sell l = false)).
    { unfold ema_buy, ema_sell, macd_buy, macd_sell, rsi_buy, rsi_sell,
        adx_ok, vol_ok, bb_buy, bb_sell, fgt, fge.
      destruct H as [H|[H|[H|[H|[H|[H|[H|[H|H]]]]]]]]; rewrite H;
        rewrite ?flt_nan_l, ?flt_nan_r, ?fle_nan_l, ?fle_nan_r, ?andb_false_r;
        cbn [andb]; tauto. }
    apply neutral_of_false; cbn [In]; tauto.
  - intros H. unfold evaluate_conditions.
    assert (Hb : bb_buy l = false)
      by (unfold bb_buy, fgt; rewrite H; apply flt_nan_l).
    rewrite Hb, all_last_false.
    destruct (all _); discriminate.
  - intros H. unfold evaluate_conditions.
    assert (Hs : bb_sell l = false)
      by (unfold bb_sell; rewrite H; apply flt_nan_r).
    rewrite Hs, all_last_false.
    destruct (all _); discriminate.
Qed.

(** ** Bounds on the moving averages *)

Lemma alpha_span_range n : (1 <= n)%nat -> 0 <= alpha_span n <= 1.
Proof.
  intros Hn. unfold alpha_span.
  assert (H1 : 1 <= INR n) by (change 1 with (INR 1); now apply le_INR).
  assert (H2 : 0 < INR n + 1) by lra.
  split.
  - apply Rlt_le. apply Rdiv_lt_0_compat; lra.
  - apply (Rmult_le_reg_r (INR n + 1)); [exact H2|].
    unfold Rdiv. rewrite Rmult_assoc, Rinv_l by lra. lra.
Qed.

Lemma ema_from_bounds a lo hi p xs :
  0 <= a <= 1 -> lo <= p <= hi ->
  Forall (fun x => lo <= x <= hi) xs ->
  Forall (fun x => lo <= x <= hi) (ema_from a p xs).
Proof.
  intros Ha. revert p. induction xs as [|x xs IH]; intros p Hp Hxs; cbn.
  - constructor.
  - inversion Hxs as [|? ? Hx Hxs']; subst.
    assert (He : lo <= a * x + (1 - a) * p <= hi) by nra.
    constructor; [exact He|]. now apply IH.
Qed.

Lemma ema_bounds a lo hi xs :
  0 <= a <= 1 ->
  Forall (fun x => lo <= x <= hi) xs ->
  Forall (fun x => lo <= x <= hi) (ema a xs).
Proof.
  intros Ha Hxs. destruct xs as [|x xs]; cbn; [constructor|].
  inversion Hxs; subst. constructor; [assumption|].
  now apply ema_from_bounds.
Qed.

Lemma ewm_close_row a df i :
  (i < length df)%nat ->
  at_row (ewm_mean a (Col.close df)) i =
  Num (nth i (ema a (map k_close df)) 0).
Proof.
  intros Hi. unfold Col.close. rewrite <- (map_map k_close num), ewm_mean_nums.
  apply at_row_nums. now rewrite length_ema, length_map.
Qed.

Lemma Forall_nth_R (P : R -> Prop) l i :
  Forall P l -> (i < length l)%nat -> P (nth i l 0).
Proof.
  intros H Hi. rewrite Forall_forall in H. apply H. now apply nth_In.
Qed.

Lemma closes_bounds lo hi df :
  Forall (fun k => lo <= k_close k <= hi) df ->
  Forall (fun x => lo <= x <= hi) (map k_close df).
Proof. intros H. apply Forall_map. exact H. Qed.

(** When every close lies in [[lo, hi]], so do EMA_fast and EMA_slow on
    every row, and MACD lies in [[lo - hi, hi - lo]]. *)
Theorem ema_within_close_range (lo hi : R) (df : list Candle) (i : nat) :
  Forall (fun k => lo <= k_close k <= hi) df ->
  (i < length df)%nat ->
  exists f s m,
    EMA_fast (row df i) = Num f /\ lo <= f <= hi /\
    EMA_slow (row df i) = Num s /\ lo <= s <= hi /\
    MACD (row df i) = Num m /\ lo - hi <= m <= hi - lo.
Proof.
  intros Hb Hi. apply closes_bounds in Hb.
  assert (Hrow : forall span, (1 <= span)%nat ->
            lo <= nth i (ema (alpha_span span) (map k_close df)) 0 <= hi).
  { intros span Hs. apply Forall_nth_R.
    - apply ema_bounds; [now apply alpha_span_range | exact Hb].
    - now rewrite length_ema, length_map. }
  exists (nth i (ema (alpha_span EMA_FAST) (map k_close df)) 0),
         (nth i (ema (alpha_span EMA_SLOW) (map k_close df)) 0),
         (nth i (ema (alpha_span MACD_FAST) (map k_close df)) 0
          - nth i (ema (alpha_span MACD_SLOW) (map k_close df)) 0).
  cbn [row EMA_fast EMA_slow MACD].
  split; [now apply ewm_close_row|].
  split; [apply Hrow; unfold EMA_FAST; lia|].
  split; [now apply ewm_close_row|].
  split; [apply Hrow; unfold EMA_SLOW; lia|].
  split.
  - unfold Col.MACD, Col.ema_fast, Col.ema_slow.
    rewrite at_row_map2 by (rewrite length_ewm_mean; unfold Col.close;
                            now rewrite length_map).
    now rewrite !ewm_close_row.
  - pose proof (Hrow MACD_FAST ltac:(unfold MACD_FAST; lia)).
    pose proof (Hrow MACD_SLOW ltac:(unfold MACD_SLOW; lia)). lra.
Qed.

Lemma ema_within_close_range_witness :
  Forall (fun k => 1 <= k_close k <= 2) jump27 /\
  (26 < length jump27)%nat /\
  exists f s m,
    EMA_fast (row jump27 26) = Num f /\ 1 <= f <= 2 /\
    EMA_slow (row jump27 26) = Num s /\ 1 <= s <= 2 /\
    MACD (row jump27 26) = Num m /\ 1 - 2 <= m <= 2 - 1.
Proof.
  assert (H1 : Forall (fun k => 1 <= k_close k <= 2) jump27).
  { apply Forall_forall. intros k Hk. unfold jump27 in Hk.
    apply in_app_or in Hk. destruct Hk as [Hk|Hk];
      apply repeat_spec in Hk; subst; cbn; lra. }
  assert (H2 : (26 < length jump27)%nat) by (cbn; lia).
  split; [exact H1|]. split; [exact H2|].
  exact (ema_within_close_range 1 2 jump27 26 H1 H2).
Defined.

(** ** Monotone closes *)

Lemma deltas_from_sorted (Rel : R -> R -> Prop) (P : R -> Prop) :
  (forall x y, Rel x y -> P (y - x)) ->
  forall xs p, Sorted Rel (p :: xs) -> Forall P (deltas_from p xs).
Proof.
  intros HP. induction xs as [|x xs IH]; intros p Hs; cbn; [constructor|].
  apply Sorted_inv in Hs. destruct Hs as [Hs Hh]. apply HdRel_inv in Hh.
  constructor; [now apply HP | now apply IH].
Qed.

Lemma deltas_sorted (Rel : R -> R -> Prop) (P : R -> Prop) xs :
  (forall x y, Rel x y -> P (y - x)) ->
  Sorted Rel xs -> Forall P (deltas xs).
Proof.
  intros HP Hs. destruct xs as [|x xs]; [constructor|].
  now apply (deltas_from_sorted Rel P HP).
Qed.

Lemma downs_zero df :
  Forall (fun d => 0 <= d) (deltas (map k_close df)) ->
  Forall (@eq R 0) (downs df).
Proof.
  intros H. unfold downs. apply Forall_map. eapply Forall_impl; [|exact H].
  intros d Hd. cbv beta. rewrite Rmin_left by exact Hd. lra.
Qed.

Lemma ups_zero df :
  Forall (fun d => d <= 0) (deltas (map k_close df)) ->
  Forall (@eq R 0) (ups df).
Proof.
  intros H. unfold ups. apply Forall_map. eapply Forall_impl; [|exact H].
  intros d Hd. cbv beta. now rewrite Rmax_left.
Qed.

Lemma downs_pos df :
  Forall (fun d => d < 0) (deltas (map k_close df)) ->
  Forall (fun x => 0 < x) (downs df).
Proof.
  intros H. unfold downs. apply Forall_map. eapply Forall_impl; [|exact H].
  intros d Hd. cbv beta. rewrite Rmin_right by lra. lra.
Qed.

Lemma ema_from_pos a p xs :
  0 <= a <= 1 -> 0 < p -> Forall (fun x => 0 < x) xs ->
  Forall (fun x => 0 < x) (ema_from a p xs).
Proof.
  intros Ha. revert p. induction xs as [|x xs IH]; intros p Hp Hxs; cbn.
  - constructor.
  - inversion Hxs as [|? ? Hx Hxs']; subst.
    assert (He : 0 < a * x + (1 - a) * p) by nra.
    constructor; [exact He|]. now apply IH.
Qed.

Lemma ema_pos a xs :
  0 <= a <= 1 -> Forall (fun x => 0 < x) xs -> Forall (fun x => 0 < x) (ema a xs).
Proof.
  intros Ha Hxs. destruct xs as [|x xs]; cbn; [constructor|].
  inversion Hxs; subst. constructor; [assumption|]. now apply ema_from_pos.
Qed.

Lemma ma_up_row_S k df i :
  (i < length df)%nat ->
  at_row (Col.ma_up (k :: df)) (S i) =
  Num (nth i (ema (alpha_com (RSI_WINDOW - 1)) (ups (k :: df))) 0).
Proof.
  intros Hi. rewrite ma_up_cons.
  change (at_row (NaN :: ?l) (S i)) with (at_row l i).
  apply at_row_nums. now rewrite length_ema, length_ups.
Qed.

Lemma ma_down_row_S k df i :
  (i < length df)%nat ->
  at_row (Col.ma_down (k :: df)) (S i) =
  Num (nth i (ema (alpha_com (RSI_WINDOW - 1)) (downs (k :: df))) 0).
Proof.
  intros Hi. rewrite ma_down_cons.
  change (at_row (NaN :: ?l) (S i)) with (at_row l i).
  apply at_row_nums. now rewrite length_ema, length_downs.
Qed.

(** With no falling close the down-average is 0 on every row. *)
Lemma RSI_no_fall df i :
  Forall (fun d => 0 <= d) (deltas (map k_close df)) ->
  (i < length df)%nat -> at_row (Col.RSI df) i = Num 50.
Proof.
  intros H Hi. rewrite RSI_row by exact Hi.
  destruct df as [|k df]; [cbn in Hi; lia|].
  destruct i as [|i].
  - rewrite ma_up_cons. apply rsi_of_nan_l.
  - cbn in Hi. rewrite ma_down_row_S by lia.
    rewrite (ema_flat _ 0) by now apply downs_zero.
    rewrite (nth_flat 0) by now apply downs_zero.
    apply rsi_of_zero.
Qed.

(** With every close below the one before, RSI is 0 from row 1 on. *)
Lemma RSI_all_fall df i :
  Forall (fun d => d < 0) (deltas (map k_close df)) ->
  (S i < length df)%nat -> at_row (Col.RSI df) (S i) = Num 0.
Proof.
  intros H Hi. rewrite RSI_row by exact Hi.
  destruct df as [|k df]; [cbn in Hi; lia|]. cbn in Hi.
  rewrite ma_up_row_S, ma_down_row_S by lia.
  assert (Hu : Forall (@eq R 0) (ups (k :: df))).
  { apply ups_zero. eapply Forall_impl; [|exact H]. intros d Hd. cbv beta. lra. }
  rewrite (ema_flat _ 0) by exact Hu. rewrite (nth_flat 0) by exact Hu.
  set (d := nth i (ema (alpha_com (RSI_WINDOW - 1)) (downs (k :: df))) 0).
  assert (Hd : 0 < d).
  { apply (Forall_nth_R (fun x => 0 < x)).
    - apply ema_pos; [apply alpha_com_range | now apply downs_pos].
    - rewrite length_ema, length_downs. lia. }
  rewrite rsi_of_nums by lra. f_equal.
  replace (0 / d) with 0 by (unfold Rdiv; ring). lra.
Qed.

Lemma ema_from_order_rising a b xs :
  0 <= b -> b <= a -> a <= 1 ->
  forall pa pb px,
    pb <= pa -> pa <= px -> Sorted Rle (px :: xs) ->
    forall i, (i < length xs)%nat ->
      nth i (ema_from b pb xs) 0 <= nth i (ema_from a pa xs) 0.
Proof.
  intros Hb Hba Ha. induction xs as [|x xs IH]; intros pa pb px Hp1 Hp2 Hs i Hi;
    [cbn in Hi; lia|].
  apply Sorted_inv in Hs. destruct Hs as [Hs Hh]. apply HdRel_inv in Hh.
  assert (H1 : b * x + (1 - b) * pb <= a * x + (1 - a) * pa) by nra.
  assert (H2 : a * x + (1 - a) * pa <= x) by nra.
  destruct i as [|i]; cbn [ema_from nth]; [exact H1|].
  apply (IH _ _ x H1 H2 Hs). cbn in Hi. lia.
Qed.

Lemma ema_from_order_falling a b xs :
  0 <= b -> b <= a -> a <= 1 ->
  forall pa pb px,
    pa <= pb -> px <= pa -> Sorted Rge (px :: xs) ->
    forall i, (i < length xs)%nat ->
      nth i (ema_from a pa xs) 0 <= nth i (ema_from b pb xs) 0.
Proof.
  intros Hb Hba Ha. induction xs as [|x xs IH]; intros pa pb px Hp1 Hp2 Hs i Hi;
    [cbn in Hi; lia|].
  apply Sorted_inv in Hs. destruct Hs as [Hs Hh]. apply HdRel_inv in Hh.
  assert (H1 : a * x + (1 - a) * pa <= b * x + (1 - b) * pb) by nra.
  assert (H2 : x <= a * x + (1 - a) * pa) by nra.
  destruct i as [|i]; cbn [ema_from nth]; [exact H1|].
  apply (IH _ _ x H1 H2 Hs). cbn in Hi. lia.
Qed.

Lemma alpha_slow_le_fast :
  0 <= alpha_span EMA_SLOW /\ alpha_span EMA_SLOW <= alpha_span EMA_FAST /\
  alpha_span EMA_FAST <= 1.
Proof.
  unfold alpha_span, EMA_SLOW, EMA_FAST.
  replace (INR 25) with 25 by (rewrite INR_IZR_INZ; reflexivity).
  replace (INR 7) with 7 by (rewrite INR_IZR_INZ; reflexivity).
  lra.
Qed.

Lemma Rltb_false x y : y <= x -> Rltb x y = false.
Proof. intros H. unfold Rltb. destruct (Rlt_dec x y); [lra | reflexivity]. Qed.

(** While the close never falls, RSI stays at its default 50 (the
    down-average is 0), the fast EMA is never below the slow one, and the
    row is never SELL. *)
Theorem rising_closes_never_sell (df : list Candle) (i : nat) :
  Sorted Rle (map k_close df) ->
  (i < length df)%nat ->
  RSI (row df i) = Num 50 /\
  ema_sell (row df i) = false /\
  evaluate_conditions (row df i) <> SELL.
Proof.
  intros Hs Hi.
  assert (Hsell : ema_sell (row df i) = false).
  { unfold ema_sell, flt. cbn [row EMA_fast EMA_slow].
    unfold Col.EMA_fast, Col.EMA_slow. rewrite !ewm_close_row by exact Hi.
    apply Rltb_false.
    destruct (map k_close df) as [|x xs] eqn:E;
      [apply (f_equal (@length R)) in E; rewrite length_map in E; cbn in E; lia|].
    assert (Hl : length (x :: xs) = length df)
      by (rewrite <- E; apply length_map).
    destruct i as [|i]; cbn [ema nth]; [lra|].
    destruct alpha_slow_le_fast as (H0 & H1 & H2).
    apply (ema_from_order_rising _ _ xs H0 H1 H2 x x x); try lra; try exact Hs.
    cbn in Hl. lia. }
  split; [|split; [exact Hsell|]].
  - cbn [row RSI]. apply RSI_no_fall; [|exact Hi].
    apply (deltas_sorted Rle); [|exact Hs]. intros x y Hxy. lra.
  - unfold evaluate_conditions.
    assert (Hall : all [ema_sell (row df i); macd_sell (row df i);
                        rsi_sell (row df i); adx_ok (row df i);
                        vol_ok (row df i); bb_sell (row df i)] = false).
    { apply all_false_in. left. exact Hsell. }
    rewrite Hall. clear Hall. destruct (all _); discriminate.
Qed.

Lemma rising3_sorted : Sorted Rle (map k_close rising3).
Proof.
  cbn [rising3 map k_close].
  repeat first [apply Sorted_nil | apply Sorted_cons | apply HdRel_nil
               | apply HdRel_cons | lra].
Qed.

Lemma rising_closes_never_sell_witness :
  Sorted Rle (map k_close rising3) /\ (1 < length rising3)%nat /\
  at_row (Col.ma_up rising3) 1 = Num 1 /\
  RSI (row rising3 1) = Num 50 /\
  ema_sell (row rising3 1) = false /\
  evaluate_conditions (row rising3 1) <> SELL.
Proof.
  assert (H : (1 < length rising3)%nat) by (cbn; lia).
  split; [exact rising3_sorted|]. split; [exact H|].
  split; [exact rising3_ma_up|].
  exact (rising_closes_never_sell rising3 1 rising3_sorted H).
Defined.

(** While the close never rises, the fast EMA is never above the slow one
    and the row is never BUY. *)
Theorem falling_closes_never_buy (df : list Candle) (i : nat) :
  Sorted Rge (map k_close df) ->
  (i < length df)%nat ->
  ema_buy (row df i) = false /\ evaluate_conditions (row df i) <> BUY.
Proof.
  intros Hs Hi.
  assert (Hbuy : ema_buy (row df i) = false).
  { unfold ema_buy, fgt, flt. cbn [row EMA_fast EMA_slow].
    unfold Col.EMA_fast, Col.EMA_slow. rewrite !ewm_close_row by exact Hi.
    apply Rltb_false.
    destruct (map k_close df) as [|x xs] eqn:E;
      [apply (f_equal (@length R)) in E; rewrite length_map in E; cbn in E; lia|].
    assert (Hl : length (x :: xs) = length df)
      by (rewrite <- E; apply length_map).
    destruct i as [|i]; cbn [ema nth]; [lra|].
    destruct alpha_slow_le_fast as (H0 & H1 & H2).
    apply (ema_from_order_falling _ _ xs H0 H1 H2 x x x); try lra; try exact Hs.
    cbn in Hl. lia. }
  split; [exact Hbuy|].
  unfold evaluate_conditions.
  assert (Hall : all [ema_buy (row df i); macd_buy (row df i);
                      rsi_buy (row df i); adx_ok (row df i);
                      vol_ok (row df i); bb_buy (row df i)] = false).
  { apply all_false_in. left. exact Hbuy. }
  rewrite Hall. clear Hall. destruct (all _); discriminate.
Qed.

Lemma falling3_sorted : Sorted Rgt (map k_close falling3).
Proof.
  cbn [falling3 map k_close].
  repeat first [apply Sorted_nil | apply Sorted_cons | apply HdRel_nil
               | apply HdRel_cons | unfold Rgt; lra].
Qed.

Lemma Sorted_Rgt_Rge l : Sorted Rgt l -> Sorted Rge l.
Proof.
  induction 1 as [|a l Hs IH Hh]; constructor; [exact IH|].
  destruct Hh; constructor. unfold Rgt, Rge in *. lra.
Qed.

Lemma falling_closes_never_buy_witness :
  Sorted Rge (map k_close falling3) /\ (2 < length falling3)%nat /\
  ema_buy (row falling3 2) = false /\
  evaluate_conditions (row falling3 2) <> BUY.
Proof.
  assert (H : (2 < length falling3)%nat) by (cbn; lia).
  pose proof (Sorted_Rgt_Rge _ falling3_sorted) as Hs.
  split; [exact Hs|]. split; [exact H|].
  exact (falling_closes_never_buy falling3 2 Hs H).
Defined.

(** While every close is below the one before, RSI is 0 from row 1 on,
    outside both RSI bands, so every row is NEUTRAL: a steady fall never
    gives SELL. *)
Theorem strictly_falling_closes_neutral (df : list Candle) (i : nat) :
  Sorted Rgt (map k_close df) ->
  (i < length df)%nat ->
  ((1 <= i)%nat -> RSI (row df i) = Num 0) /\
  evaluate_conditions (row df i) = NEUTRAL.
Proof.
  intros Hs Hi.
  assert (Hd : Forall (fun d => d < 0) (deltas (map k_close df))).
  { apply (deltas_sorted Rgt); [|exact Hs]. intros x y Hxy. unfold Rgt in Hxy. lra. }
  destruct i as [|i].
  - split; [lia|]. apply ADX_warmup_row; [exact Hi | cbn; lia].
  - assert (HR : RSI (row df (S i)) = Num 0)
      by (cbn [row RSI]; now apply RSI_all_fall).
    split; [intros _; exact HR|].
    apply neutral_of_false; cbn [In]; right; right; left.
    + unfold rsi_buy, fle, num. rewrite HR.
      rewrite Rleb_false by (unfold RSI_BUY_MIN; lra). reflexivity.
    + unfold rsi_sell, fle, num. rewrite HR.
      rewrite Rleb_false by (unfold RSI_SELL_MIN; lra). reflexivity.
Qed.

Lemma strictly_falling_closes_neutral_witness :
  Sorted Rgt (map k_close falling3) /\ (2 < length falling3)%nat /\
  RSI (row falling3 2) = Num 0 /\
  evaluate_conditions (row falling3 2) = NEUTRAL.
Proof.
  assert (H : (2 < length falling3)%nat) by (cbn; lia).
  destruct (strictly_falling_closes_neutral falling3 2 falling3_sorted H)
    as [HR HN].
  split; [exact falling3_sorted|]. split; [exact H|].
  split; [apply HR; lia | exact HN].
Defined.

(** ** Bollinger bands *)

Lemma sma_row df i :
  (BB_WINDOW <= i + 1)%nat -> (i < length df)%nat ->
  at_row (Col.sma df) i = Num (mean_R (win BB_WINDOW i (map k_close df))).
Proof.
  intros Hw Hi. unfold Col.sma, Col.close.
  rewrite <- (map_map k_close num), rolling_mean_nums_row
    by (rewrite ?length_map; try assumption; unfold BB_WINDOW; lia).
  reflexivity.
Qed.

Lemma std_row df i :
  (BB_WINDOW <= i + 1)%nat -> (i < length df)%nat ->
  exists s, at_row (Col.std df) i = Num s /\ 0 <= s.
Proof.
  intros Hw Hi. unfold Col.std, Col.close.
  rewrite <- (map_map k_close num), rolling_nums_row
    by (rewrite ?length_map; assumption).
  rewrite agg_std_nums
    by (rewrite length_win by (rewrite ?length_map; assumption);
        unfold BB_WINDOW; lia).
  eexists. split; [reflexivity | apply sqrt_pos].
Qed.

(** The bands are NaN on the first [BB_WINDOW - 1] rows; from then on they
    are the mean of the last [BB_WINDOW] closes plus and minus twice a
    non-negative deviation, so [bb_lower <= bb_upper]. *)
Theorem bollinger_bands (df : list Candle) (i : nat) :
  (i < length df)%nat ->
  ((i + 1 < BB_WINDOW)%nat ->
     bb_upper (row df i) = NaN /\ bb_lower (row df i) = NaN) /\
  ((BB_WINDOW <= i + 1)%nat ->
     exists s,
       0 <= s /\
       bb_upper (row df i) =
         Num (mean_R (win BB_WINDOW i (map k_close df)) + 2 * s) /\
       bb_lower (row df i) =
         Num (mean_R (win BB_WINDOW i (map k_close df)) - 2 * s)).
Proof.
  intros Hi. cbn [row bb_upper bb_lower].
  rewrite bb_upper_row, bb_lower_row by exact Hi. split.
  - intros Hs. unfold Col.sma.
    rewrite rolling_short_row
      by (unfold Col.close; rewrite ?length_map; assumption).
    split; reflexivity.
  - intros Hw. destruct (std_row df i Hw Hi) as (s & Hs & Hs0).
    exists s. rewrite (sma_row df i Hw Hi), Hs. repeat split. exact Hs0.
Qed.

Lemma bollinger_bands_witness :
  (20 < length flat21)%nat /\ (BB_WINDOW <= 20 + 1)%nat /\
  exists s,
    0 <= s /\
    bb_upper (row flat21 20) =
      Num (mean_R (win BB_WINDOW 20 (map k_close flat21)) + 2 * s) /\
    bb_lower (row flat21 20) =
      Num (mean_R (win BB_WINDOW 20 (map k_close flat21)) - 2 * s).
Proof.
  assert (H1 : (20 < length flat21)%nat) by (cbn; lia).
  assert (H2 : (BB_WINDOW <= 20 + 1)%nat) by (unfold BB_WINDOW; lia).
  split; [exact H1|]. split; [exact H2|].
  exact (proj2 (bollinger_bands flat21 20 H1) H2).
Defined.

(** ** The volume mean on short frames *)

Lemma bfill_all_nan xs : Forall (eq NaN) xs -> bfill xs = xs.
Proof.
  induction 1 as [|x xs Hx Hxs IH]; [reflexivity|]. subst x.
  cbn [bfill]. rewrite IH. destruct Hxs as [|y ys Hy _]; [reflexivity|].
  subst y. reflexivity.
Qed.

Lemma rolling_all_short w agg xs :
  (length xs < w)%nat -> Forall (eq NaN) (rolling w agg xs).
Proof.
  intros H. unfold rolling. apply Forall_map, Forall_forall.
  intros i Hi. apply in_seq in Hi. rewrite window_short by lia. reflexivity.
Qed.

(** [vol_ma] has a value on every row when the frame has at least
    [VOL_WINDOW] rows, and on no row when it has fewer: the back-fill has
    nothing to copy. *)
Theorem vol_ma_defined_iff (df : list Candle) (i : nat) :
  (i < length df)%nat ->
  (is_num (vol_ma (row df i)) <-> (VOL_WINDOW <= length df)%nat).
Proof.
  intros Hi. cbn [row vol_ma]. split.
  - intros (v & Hv).
    destruct (Nat.le_gt_cases VOL_WINDOW (length df)) as [H|H]; [exact H|].
    exfalso. unfold Col.vol_ma in Hv.
    assert (Hn : Forall (eq NaN) (rolling VOL_WINDOW agg_mean (Col.volume df))).
    { apply rolling_all_short. unfold Col.volume. now rewrite length_map. }
    rewrite (bfill_all_nan _ Hn) in Hv.
    rewrite Forall_forall in Hn.
    assert (Hin : In (at_row (rolling VOL_WINDOW agg_mean (Col.volume df)) i)
                     (rolling VOL_WINDOW agg_mean (Col.volume df))).
    { apply nth_In. rewrite length_rolling. unfold Col.volume.
      now rewrite length_map. }
    apply Hn in Hin. rewrite Hv in Hin. discriminate.
  - intros H. rewrite vol_ma_row by (unfold VOL_WINDOW in *; lia).
    unfold Col.volume.
    rewrite <- (map_map k_volume num), rolling_mean_nums_row
      by (rewrite ?length_map; unfold VOL_WINDOW in *; lia).
    apply is_num_num.
Qed.

Lemma vol_ma_defined_iff_witness :
  (0 < length quiet20)%nat /\ is_num (vol_ma (row quiet20 0)) /\
  (0 < length flat5)%nat /\ ~ is_num (vol_ma (row flat5 0)).
Proof.
  assert (H1 : (0 < length quiet20)%nat) by (cbn; lia).
  assert (H2 : (0 < length flat5)%nat) by (cbn; lia).
  split; [exact H1|]. split.
  - apply (proj2 (vol_ma_defined_iff quiet20 0 H1)).
    unfold VOL_WINDOW. cbn. lia.
  - split; [exact H2|]. intros Hn.
    apply (proj1 (vol_ma_defined_iff flat5 0 H2)) in Hn.
    unfold VOL_WINDOW in Hn. cbn in Hn. lia.
Defined.

(** ** Directional movement and ADX *)

Lemma length_up_move df : length (Col.up_move df) = length df.
Proof. col_length. Qed.

Lemma length_down_move df : length (Col.down_move df) = length df.
Proof. col_length. Qed.

(** *** No infinity in the columns

    The divisions behind ADX have [replace(0, nan)] on their divisor and
    finite operands, so none of its columns ever holds an infinity. *)

Lemma not_inf_at_row col i : Forall not_inf col -> not_inf (at_row col i).
Proof.
  intros H. unfold at_row.
  destruct (nth_in_or_default i col NaN) as [Hin|E].
  - rewrite Forall_forall in H. now apply H.
  - rewrite E. exact I.
Qed.

Lemma Forall_not_inf_nums l : Forall not_inf (map num l).
Proof. apply Forall_map, Forall_forall. intros x _. exact I. Qed.

Lemma Forall_not_inf_map f xs :
  (forall a, not_inf a -> not_inf (f a)) ->
  Forall not_inf xs -> Forall not_inf (map f xs).
Proof.
  intros Hf H. apply Forall_map. eapply Forall_impl; [|exact H]. exact Hf.
Qed.

Lemma Forall_not_inf_map2 f xs ys :
  (forall a b, not_inf a -> not_inf b -> not_inf (f a b)) ->
  Forall not_inf xs -> Forall not_inf ys -> Forall not_inf (map2 f xs ys).
Proof.
  intros Hf Hx. revert ys. induction Hx as [|x xs Hx _ IH]; intros ys Hy.
  - constructor.
  - destruct Hy as [|y ys Hy Hys]; cbn; constructor; auto.
Qed.

Lemma Forall_not_inf_shift_from p xs :
  not_inf p -> Forall not_inf xs -> Forall not_inf (shift_from p xs).
Proof.
  intros Hp H. revert p Hp. induction H as [|x xs Hx _ IH]; intros p Hp; cbn.
  - constructor.
  - constructor; [exact Hp | now apply IH].
Qed.

Lemma Forall_not_inf_shift xs :
  Forall not_inf xs -> Forall not_inf (shift xs).
Proof. apply Forall_not_inf_shift_from. exact I. Qed.

Lemma nums_of_not_inf l :
  Forall not_inf l -> has_nan l = false -> exists vs, l = map num vs.
Proof.
  induction 1 as [|x l Hx _ IH]; intros Hn; [now exists []|].
  destruct x as [|x|s]; cbn in Hn; [discriminate| |destruct Hx].
  destruct (IH Hn) as (vs & ->). now exists (x :: vs).
Qed.

Lemma not_inf_agg_sum vs : not_inf (agg_sum (map num vs)).
Proof. now rewrite agg_sum_nums. Qed.

Lemma not_inf_agg_mean vs : not_inf (agg_mean (map num vs)).
Proof.
  destruct vs as [|v vs].
  - unfold agg_mean, agg_sum, fdiv, num. cbn [map fold_right length INR].
    destruct (Req_dec_T 0 0) as [_|N]; [exact I | now contradiction N].
  - now rewrite agg_mean_nums by discriminate.
Qed.

Lemma Forall_not_inf_rolling w agg xs :
  (forall vs, not_inf (agg (map num vs))) ->
  Forall not_inf xs -> Forall not_inf (rolling w agg xs).
Proof.
  intros Hagg H. unfold rolling. apply Forall_map, Forall_forall. intros i _.
  unfold window. destruct (w <=? i + 1)%nat; [|exact I].
  destruct (has_nan _) eqn:E; [exact I|].
  apply nums_of_not_inf in E; [|now apply Forall_skipn, Forall_firstn].
  destruct E as (vs & ->). apply Hagg.
Qed.

Lemma not_inf_fsub a b : not_inf a -> not_inf b -> not_inf (fsub a b).
Proof. destruct a as [|x|s], b as [|y|t]; cbn; tauto. Qed.

Lemma not_inf_fadd a b : not_inf a -> not_inf b -> not_inf (fadd a b).
Proof. destruct a as [|x|s], b as [|y|t]; cbn; tauto. Qed.

Lemma not_inf_fabs a : not_inf a -> not_inf (fabs a).
Proof. destruct a as [|x|s]; cbn; tauto. Qed.

Lemma not_inf_fmul_num c a : not_inf a -> not_inf (fmul (num c) a).
Proof. destruct a as [|x|s]; cbn; tauto. Qed.

Lemma not_inf_max_skipna a b : not_inf a -> not_inf b -> not_inf (max_skipna a b).
Proof. destruct a as [|x|s], b as [|y|t]; cbn; tauto. Qed.

(** A division whose divisor went through [replace(0, nan)]. *)
Lemma not_inf_fdiv_guarded a b :
  not_inf a -> not_inf b -> not_inf (fdiv a (replace_zero_nan b)).
Proof.
  destruct a as [|x|s], b as [|y|t]; cbn; try tauto.
  intros _ _. destruct (Req_dec_T y 0) as [E|N]; cbn; [exact I|].
  destruct (Req_dec_T y 0) as [E|_]; [contradiction | exact I].
Qed.

Lemma not_inf_dm u d :
  not_inf u -> not_inf (np_where (fgt u d) (maximum u (num 0)) (num 0)).
Proof.
  intros Hu. destruct (fgt u d); [|exact I].
  destruct u as [|x|s]; cbn; tauto.
Qed.

Lemma no_inf_up_move df : Forall not_inf (Col.up_move df).
Proof.
  unfold Col.up_move, Col.high.
  apply Forall_not_inf_map2; [exact not_inf_fsub | |apply Forall_not_inf_shift];
    rewrite <- (map_map k_high num); apply Forall_not_inf_nums.
Qed.

Lemma no_inf_down_move df : Forall not_inf (Col.down_move df).
Proof.
  unfold Col.down_move, Col.low.
  apply Forall_not_inf_map2; [exact not_inf_fsub |apply Forall_not_inf_shift| ];
    rewrite <- (map_map k_low num); apply Forall_not_inf_nums.
Qed.

Lemma no_inf_plus_dm df : Forall not_inf (Col.plus_dm df).
Proof.
  unfold Col.plus_dm. apply Forall_not_inf_map2;
    [|apply no_inf_up_move | apply no_inf_down_move].
  intros u d Hu _. now apply not_inf_dm.
Qed.

Lemma no_inf_minus_dm df : Forall not_inf (Col.minus_dm df).
Proof.
  unfold Col.minus_dm. apply Forall_not_inf_map2;
    [|apply no_inf_up_move | apply no_inf_down_move].
  intros u d _ Hd. now apply not_inf_dm.
Qed.

Lemma no_inf_close df : Forall not_inf (Col.close df).
Proof.
  unfold Col.close. rewrite <- (map_map k_close num). apply Forall_not_inf_nums.
Qed.

Lemma no_inf_TR df : Forall not_inf (Col.TR df).
Proof.
  assert (Hh : Forall not_inf (Col.high df))
    by (unfold Col.high; rewrite <- (map_map k_high num); apply Forall_not_inf_nums).
  assert (Hl : Forall not_inf (Col.low df))
    by (unfold Col.low; rewrite <- (map_map k_low num); apply Forall_not_inf_nums).
  assert (Hc : Forall not_inf (shift (Col.close df)))
    by (apply Forall_not_inf_shift, no_inf_close).
  unfold Col.TR, Col.tr0, Col.tr1, Col.tr2.
  repeat first
    [ apply Forall_not_inf_map2; [first [exact not_inf_max_skipna | exact not_inf_fsub] | |]
    | apply Forall_not_inf_map; [exact not_inf_fabs|]
    | assumption ].
Qed.

Lemma no_inf_rolling_sum col :
  Forall not_inf col -> Forall not_inf (rolling ADX_WINDOW agg_sum col).
Proof. apply Forall_not_inf_rolling, not_inf_agg_sum. Qed.

Lemma no_inf_di dm_s df :
  Forall not_inf dm_s ->
  Forall not_inf
    (map (fmul (num 100)) (map2 fdiv dm_s (map replace_zero_nan (Col.TR_s df)))).
Proof.
  intros H. apply Forall_not_inf_map; [apply not_inf_fmul_num|].
  rewrite map2_map_r. apply Forall_not_inf_map2;
    [exact not_inf_fdiv_guarded | exact H |].
  unfold Col.TR_s. apply no_inf_rolling_sum, no_inf_TR.
Qed.

Lemma no_inf_plus_di df : Forall not_inf (Col.plus_di df).
Proof. apply no_inf_di. apply no_inf_rolling_sum, no_inf_plus_dm. Qed.

Lemma no_inf_minus_di df : Forall not_inf (Col.minus_di df).
Proof. apply no_inf_di. apply no_inf_rolling_sum, no_inf_minus_dm. Qed.

Lemma no_inf_DX df : Forall not_inf (Col.DX df).
Proof.
  unfold Col.DX. rewrite map2_map_r.
  apply Forall_not_inf_map2; [exact not_inf_fdiv_guarded | |].
  - apply Forall_not_inf_map; [apply not_inf_fmul_num|].
    apply Forall_not_inf_map; [exact not_inf_fabs|].
    apply Forall_not_inf_map2;
      [exact not_inf_fsub | apply no_inf_plus_di | apply no_inf_minus_di].
  - apply Forall_not_inf_map2;
      [exact not_inf_fadd | apply no_inf_plus_di | apply no_inf_minus_di].
Qed.

Lemma is_num_fillna v a : not_inf a -> is_num (fillna v a).
Proof.
  destruct a as [|x|s]; cbn; intros H; [now exists v | now exists x | destruct H].
Qed.

(** ADX is a number on every row: never NaN and never infinite. *)
Lemma ADX_defined df i :
  (i < length df)%nat -> is_num (at_row (Col.ADX df) i).
Proof.
  intros Hi. unfold Col.ADX.
  rewrite at_row_map by (rewrite length_rolling, length_DX; exact Hi).
  apply is_num_fillna, not_inf_at_row.
  apply Forall_not_inf_rolling; [exact not_inf_agg_mean | apply no_inf_DX].
Qed.

(** On every row of every history DX is NaN or a finite number and ADX is
    a finite number: +DI, -DI and DX divide by a column that went through
    [replace(0, nan)], so that no division gives an infinity, and
    [fillna(0)] takes the NaN out of the rolling mean. *)
Theorem adx_always_finite (df : list Candle) (i : nat) :
  (i < length df)%nat ->
  not_inf (at_row (Col.DX df) i) /\ is_num (ADX (row df i)).
Proof.
  intros Hi. split.
  - apply not_inf_at_row, no_inf_DX.
  - cbn [row ADX]. now apply ADX_defined.
Qed.

Lemma adx_always_finite_witness :
  (26 < length jump27)%nat /\
  not_inf (at_row (Col.DX jump27) 26) /\ is_num (ADX (row jump27 26)).
Proof.
  assert (H : (26 < length jump27)%nat) by (cbn; lia).
  split; [exact H|]. exact (adx_always_finite jump27 26 H).
Defined.

(** *** Directional movement *)


Lemma dm_pair u d :
  not_inf u -> not_inf d ->
  exists p m,
    np_where (fgt u d) (maximum u (num 0)) (num 0) = Num p /\
    np_where (fgt d u) (maximum d (num 0)) (num 0) = Num m /\
    0 <= p /\ 0 <= m /\ (p = 0 \/ m = 0).
Proof.
  intros Hu Hd.
  destruct u as [|u|s], d as [|d|t]; try destruct Hu; try destruct Hd;
    try (exists 0, 0; repeat split; try reflexivity; try lra; now left).
  unfold fgt, flt, Rltb, np_where, maximum, fmax, num.
  destruct (Rlt_dec d u) as [Hdu|Hdu], (Rlt_dec u d) as [Hud|Hud].
  - lra.
  - exists (Rmax u 0), 0. split; [reflexivity|]. split; [reflexivity|].
    split; [apply Rmax_r|]. split; [lra | now right].
  - exists 0, (Rmax d 0). split; [reflexivity|]. split; [reflexivity|].
    split; [lra|]. split; [apply Rmax_r | now left].
  - exists 0, 0. split; [reflexivity|]. split; [reflexivity|].
    split; [lra|]. split; [lra | now left].
Qed.

Lemma dm_rows df i :
  (i < length df)%nat ->
  exists p m,
    at_row (Col.plus_dm df) i = Num p /\
    at_row (Col.minus_dm df) i = Num m /\
    0 <= p /\ 0 <= m /\ (p = 0 \/ m = 0).
Proof.
  intros Hi. unfold Col.plus_dm, Col.minus_dm.
  rewrite !at_row_map2 by (rewrite ?length_up_move, ?length_down_move; exact Hi).
  apply dm_pair; apply not_inf_at_row;
    [apply no_inf_up_move | apply no_inf_down_move].
Qed.

(** On every row +DM and -DM are non-negative numbers, never NaN, and at
    most one of them is not zero. *)
Theorem directional_movement_exclusive (df : list Candle) (i : nat) :
  (i < length df)%nat ->
  exists p m,
    at_row (Col.plus_dm df) i = Num p /\
    at_row (Col.minus_dm df) i = Num m /\
    0 <= p /\ 0 <= m /\ (p = 0 \/ m = 0).
Proof. exact (dm_rows df i). Qed.

Lemma directional_movement_exclusive_witness :
  (12 < length jump27)%nat /\
  exists p m,
    at_row (Col.plus_dm jump27) 12 = Num p /\
    at_row (Col.minus_dm jump27) 12 = Num m /\
    0 <= p /\ 0 <= m /\ (p = 0 \/ m = 0).
Proof.
  assert (H : (12 < length jump27)%nat) by (cbn; lia).
  split; [exact H|]. exact (directional_movement_exclusive jump27 12 H).
Defined.

(** ** Every field is defined once the windows are full *)

Lemma ewm_close_defined a df i :
  (i < length df)%nat -> is_num (at_row (ewm_mean a (Col.close df)) i).
Proof.
  intros Hi. unfold Col.close. rewrite <- (map_map k_close num), ewm_mean_nums.
  rewrite at_row_nums by now rewrite length_ema, length_map.
  apply is_num_num.
Qed.

Lemma length_MACD df : length (Col.MACD df) = length df.
Proof. col_length. Qed.

Lemma MACD_defined df i :
  (i < length df)%nat -> is_num (at_row (Col.MACD df) i).
Proof.
  intros Hi. pose proof (length_MACD df) as L. revert L. rewrite MACD_nums.
  rewrite length_map. intros L.
  rewrite at_row_nums by lia. apply is_num_num.
Qed.

Lemma MACD_signal_defined df i :
  (i < length df)%nat -> is_num (at_row (Col.MACD_signal df) i).
Proof.
  intros Hi. pose proof (length_MACD df) as L. revert L.
  unfold Col.MACD_signal. rewrite MACD_nums, ewm_mean_nums, length_map. intros L.
  rewrite at_row_nums by (rewrite length_ema; lia). apply is_num_num.
Qed.

Lemma sma_defined df i :
  (BB_WINDOW <= i + 1)%nat -> (i < length df)%nat ->
  is_num (at_row (Col.sma df) i).
Proof. intros Hw Hi. rewrite sma_row by assumption. apply is_num_num. Qed.

Lemma std_defined df i :
  (BB_WINDOW <= i + 1)%nat -> (i < length df)%nat ->
  is_num (at_row (Col.std df) i).
Proof.
  intros Hw Hi. destruct (std_row df i Hw Hi) as (s & -> & _). apply is_num_num.
Qed.

Lemma vol_ma_defined df i :
  (VOL_WINDOW <= i + 1)%nat -> (i < length df)%nat ->
  is_num (at_row (Col.vol_ma df) i).
Proof.
  intros Hw Hi. unfold Col.vol_ma.
  exists (mean_R (win VOL_WINDOW i (map k_volume df))).
  apply bfill_keeps_row. unfold Col.volume.
  rewrite <- (map_map k_volume num), rolling_mean_nums_row
    by (rewrite ?length_map; try assumption; unfold VOL_WINDOW; lia).
  reflexivity.
Qed.

(** A row that has all three rolling windows behind it is fully defined. *)
Lemma row_fully_defined df i :
  (max_window <= i + 1)%nat -> (i < length df)%nat ->
  fully_defined (row df i).
Proof.
  intros Hw Hi.
  change max_window with 20%nat in Hw.
  assert (Hbb : (BB_WINDOW <= i + 1)%nat) by (unfold BB_WINDOW; lia).
  assert (Hv : (VOL_WINDOW <= i + 1)%nat) by (unfold VOL_WINDOW; lia).
  unfold fully_defined. cbn [row close volume EMA_fast EMA_slow MACD MACD_signal
                             RSI ADX bb_upper bb_lower vol_ma].
  repeat split.
  - rewrite close_row by exact Hi. apply is_num_num.
  - unfold Col.volume. rewrite <- (map_map k_volume num).
    rewrite at_row_nums by now rewrite length_map. apply is_num_num.
  - now apply ewm_close_defined.
  - now apply ewm_close_defined.
  - now apply MACD_defined.
  - now apply MACD_signal_defined.
  - destruct (RSI_in_range df i Hi) as (r & Hr & _). now exists r.
  - now apply ADX_defined.
  - rewrite bb_upper_row by exact Hi.
    destruct (sma_defined df i Hbb Hi) as (m & ->).
    destruct (std_defined df i Hbb Hi) as (s & ->). apply is_num_num.
  - rewrite bb_lower_row by exact Hi.
    destruct (sma_defined df i Hbb Hi) as (m & ->).
    destruct (std_defined df i Hbb Hi) as (s & ->). apply is_num_num.
  - now apply vol_ma_defined.
Qed.

(** C6.  On a series of exactly [max_window + 1] rows the engine returns
    a frame whose last row has a number in every field the evaluator
    reads: no NaN reaches it. *)
Theorem defined_at_minimum_length (df : list Candle) :
  length df = (max_window + 1)%nat ->
  exists latest,
    iloc_last (compute_indicators df) = inl latest /\ fully_defined latest.
Proof.
  intros Hlen. exists (row df (length df - 1)). split.
  - apply iloc_last_rows. destruct df; [discriminate Hlen | discriminate].
  - apply row_fully_defined; rewrite Hlen; change max_window with 20%nat; lia.
Qed.

Lemma defined_at_minimum_length_witness :
  length flat21 = (max_window + 1)%nat /\
  exists latest,
    iloc_last (compute_indicators flat21) = inl latest /\ fully_defined latest.
Proof.
  split; [reflexivity|]. apply (defined_at_minimum_length flat21). reflexivity.
Defined.

(** ** The polling cycle *)

Lemma run_symbols_acc fetch symbols :
  forall out,
    run_symbols fetch symbols out =
    (out ++ fst (run_symbols fetch symbols []),
     snd (run_symbols fetch symbols [])).
Proof.
  induction symbols as [|s rest IH]; intros out; cbn [run_symbols].
  - cbn. now rewrite app_nil_r.
  - destruct (analyze_symbol fetch s) as [[c d]|e].
    + rewrite (IH (out ++ _)), (IH ([] ++ _)). cbn [fst snd app].
      now rewrite <- app_assoc.
    + cbn. now rewrite app_nil_r.
Qed.

Lemma run_symbols_cons_ok fetch s rest c d :
  analyze_symbol fetch s = inl (c, d) ->
  run_symbols fetch (s :: rest) [] =
  (Printed (format_message s c d) :: fst (run_symbols fetch rest []),
   snd (run_symbols fetch rest [])).
Proof.
  intros H. cbn [run_symbols]. rewrite H, run_symbols_acc. reflexivity.
Qed.

Lemma delivered_inv fetch s o c d :
  analyze_symbol fetch s = inl (c, d) -> delivered fetch s o ->
  o = Printed (format_message s c d).
Proof.
  intros H (c' & d' & H' & ->). rewrite H in H'. now inversion H'.
Qed.

Lemma run_symbols_completes fetch symbols :
  forall outs,
    run_symbols fetch symbols [] = (outs, None) <->
    Forall2 (delivered fetch) symbols outs.
Proof.
  induction symbols as [|s rest IH]; intros outs.
  - cbn. split.
    + intros H. inversion H. constructor.
    + intros H. inversion H. reflexivity.
  - destruct (analyze_symbol fetch s) as [[c d]|e] eqn:Ea.
    + rewrite (run_symbols_cons_ok _ _ _ _ _ Ea). split.
      * intros H. inversion H as [[Ho Hn]]. constructor.
        -- exists c, d. now split.
        -- apply IH. rewrite <- Hn. now destruct (run_symbols fetch rest []).
      * intros H. inversion H as [|? o ? outs' Hd Hrest]; subst.
        rewrite (delivered_inv _ _ _ _ _ Ea Hd).
        apply IH in Hrest. now rewrite Hrest.
    + cbn [run_symbols]. rewrite Ea. split; [discriminate|].
      intros H. inversion H as [|? o ? outs' (c & d & Hd & _) _]; subst.
      rewrite Ea in Hd. discriminate.
Qed.

Lemma run_symbols_aborts fetch symbols :
  forall outs e,
    run_symbols fetch symbols [] = (outs, Some e) <->
    exists pre s post,
      symbols = pre ++ s :: post /\
      Forall2 (delivered fetch) pre outs /\
      analyze_symbol fetch s = inr e.
Proof.
  induction symbols as [|s0 rest IH]; intros outs e.
  - cbn. split; [discriminate|].
    intros (pre & s & post & H & _). destruct pre; discriminate.
  - destruct (analyze_symbol fetch s0) as [[c d]|e0] eqn:Ea.
    + rewrite (run_symbols_cons_ok _ _ _ _ _ Ea). split.
      * intros H. inversion H as [[Ho Hn]].
        assert (Hr : run_symbols fetch rest [] =
                     (fst (run_symbols fetch rest []), Some e))
          by (rewrite <- Hn; now destruct (run_symbols fetch rest [])).
        apply IH in Hr. destruct Hr as (pre & s & post & -> & Hf & Hs).
        exists (s0 :: pre), s, post. split; [reflexivity|]. split; [|exact Hs].
        constructor; [|exact Hf]. exists c, d. now split.
      * intros (pre & s & post & Hsym & Hf & Hs).
        destruct pre as [|p pre].
        -- cbn in Hsym. inversion Hsym; subst. rewrite Ea in Hs. discriminate.
        -- cbn in Hsym. inversion Hsym; subst.
           inversion Hf as [|? o ? outs' Hd Hrest]; subst.
           rewrite (delivered_inv _ _ _ _ _ Ea Hd).
           assert (Hr : run_symbols fetch (pre ++ s :: post) [] = (outs', Some e))
             by (apply IH; exists pre, s, post; auto).
           now rewrite Hr.
    + cbn [run_symbols]. rewrite Ea. split.
      * intros H. inversion H; subst. exists [], s0, rest.
        split; [reflexivity|]. split; [constructor | exact Ea].
      * intros (pre & s & post & Hsym & Hf & Hs).
        destruct pre as [|p pre].
        -- cbn in Hsym. inversion Hsym; subst. inversion Hf; subst.
           rewrite Ea in Hs. now inversion Hs.
        -- cbn in Hsym. inversion Hsym; subst.
           inversion Hf as [|? o ? outs' (c & d & Hd & _) _]; subst.
           rewrite Ea in Hd. discriminate.
Qed.

(** A pass ends without an exception exactly when every symbol's analysis
    succeeds; it then prints one message per symbol, in the order of
    [SYMBOLS_FIXED], and sends nothing to the messaging API. *)
Theorem main_cycle_completes (fetch : Fetch) (outs : list Output) :
  main_cycle fetch = (outs, None) <->
  Forall2 (delivered fetch) SYMBOLS_FIXED outs.
Proof. apply run_symbols_completes. Qed.

(** A pass ends with exception [e] exactly when some symbol's analysis
    raises [e] after the analyses of all symbols before it succeeded; the
    messages of those earlier symbols have been printed, and nothing is
    delivered for the failing symbol or the ones after it. *)
Theorem main_cycle_aborts (fetch : Fetch) (outs : list Output) (e : Error) :
  main_cycle fetch = (outs, Some e) <->
  exists pre s post,
    SYMBOLS_FIXED = pre ++ s :: post /\
    Forall2 (delivered fetch) pre outs /\
    analyze_symbol fetch s = inr e.
Proof. apply run_symbols_aborts. Qed.
